(** * cf-expandables: the expandable widget controller

    A shallow embedding of [src/js/cf-expandables.js] and the properties
    its specification states about it.

    The widget is a jQuery plugin.  jQuery and the browser are external
    collaborators; the part of them the widget uses is modelled here by
    - an [Element]: the class names of its class attribute, its
      attributes, its rendered height and the slide animations that were
      requested on it;
    - a jQuery set of at most one element ([$el.find( '...:first' )]) as
      an [option Element]: every jQuery setter maps over the set, every
      getter on the empty set yields nothing;
    - [.addClass], [.removeClass] and [.hasClass] on the string they are
      given, as jQuery treats it: the first two take it apart at white
      space, the third looks it up as it is;
    - [window.setTimeout] by the deadline of the timeout, which the
      event loop runs in a task of its own, not before the deadline;
    - JavaScript integers as [Z]. *)

From Stdlib Require Import ZArith Lia Ascii Sorted.
From stdpp Require Import base option list strings gmap sorting.

Local Open Scope string_scope.
Local Open Scope Z_scope.

(** ** The DOM as the widget sees it *)

Inductive Slide := SlideDown | SlideUp.

(** One animation request: [$content.slideDown( { duration, easing } )].
    The duration is [None] when it is not a number (it is computed from
    the height of an empty set). *)
Definition Animation : Type := Slide * option Z.

Record Element := mkElement {
  className : list string;          (* the names in the class attribute *)
  attributes : gmap string string;  (* the other attributes *)
  height : Z;                       (* what [.height()] returns *)
  fx : list Animation               (* animations requested, newest first *)
}.

Definition set_className (f : list string -> list string) (e : Element) :=
  mkElement (f (className e)) (attributes e) (height e) (fx e).
Definition set_attributes
    (f : gmap string string -> gmap string string) (e : Element) :=
  mkElement (className e) (f (attributes e)) (height e) (fx e).
Definition push_fx (a : Animation) (e : Element) :=
  mkElement (className e) (attributes e) (height e) (a :: fx e).

(** *** Class names

    White space in a class attribute: space, tab, line feed, form feed
    and carriage return. *)
Definition is_white (a : ascii) : bool :=
  bool_decide (a ∈ [" "; "009"; "010"; "012"; "013"]%char).

(** The names in [s], [cur] being the name that is being read. *)
Fixpoint tokens_from (cur s : string) : list string :=
  match s with
  | EmptyString => if bool_decide (cur = "") then [] else [cur]
  | String a s' =>
      if is_white a
      then (if bool_decide (cur = "") then tokens_from "" s'
            else cur :: tokens_from "" s')
      else tokens_from (cur +:+ String a "") s'
  end.

(** [classesToArray] of jQuery 3: the string taken apart at white
    space.  Earlier versions of jQuery do the same on a string of
    visible characters and the white space above. *)
Definition classesToArray (value : string) : list string :=
  tokens_from "" value.

(** [c] is one class name in plain writing: not empty, and made of
    visible ASCII characters only.  Every version of jQuery takes such a
    string as one name. *)
Definition is_visible (a : ascii) : bool :=
  (33 <=? nat_of_ascii a)%nat && (nat_of_ascii a <=? 126)%nat.

Fixpoint all_visible (s : string) : bool :=
  match s with
  | EmptyString => true
  | String a s' => is_visible a && all_visible s'
  end.

Definition is_class_name (c : string) : bool :=
  match c with
  | EmptyString => false
  | String _ _ => all_visible c
  end.

Definition class_name (c : string) : Prop := is_class_name c = true.

(** [ts] stands in [l] from the start, and somewhere in [l] in one
    piece. *)
Fixpoint starts_with (ts l : list string) : bool :=
  match ts, l with
  | [], _ => true
  | t :: ts', x :: l' => bool_decide (t = x) && starts_with ts' l'
  | _ :: _, [] => false
  end.

Fixpoint occurs (ts l : list string) : bool :=
  starts_with ts l
  || match l with
     | [] => false
     | _ :: l' => occurs ts l'
     end.

(** [.hasClass( c )] on one element: jQuery looks for [c] between two
    spaces in the class names written with one space before, between
    and after them.  For the empty string that is so when the element
    has no class name; for names with one space between them it is so
    when they stand in the class attribute next to each other in that
    order; for a string with other white space it is never so. *)
Definition hasClass (c : string) (e : Element) : bool :=
  match classesToArray c with
  | [] => bool_decide (c = "") && bool_decide (className e = [])
  | ts => bool_decide (c = String.concat " " ts) && occurs ts (className e)
  end.

(** [.addClass( c )]: each name in [c] that the element does not have is
    put behind the names it has. *)
Definition add_names (ts l : list string) : list string :=
  foldl (fun l t => if bool_decide (t ∈ l) then l else (l ++ [t])%list) l ts.
Definition addClass (c : string) (e : Element) : Element :=
  set_className (add_names (classesToArray c)) e.

(** [.removeClass( c )]: each name in [c] is taken off the element
    wherever it stands. *)
Definition remove_names (ts l : list string) : list string :=
  filter (fun x => x ∉ ts) l.
Definition removeClass (c : string) (e : Element) : Element :=
  set_className (remove_names (classesToArray c)) e.

(** [.attr( name, value )] and [.attr( name )] on a set of at most one
    element.  The getter on an empty set, or for an attribute that is not
    there, is [undefined]: [None]. *)
Definition attr (name value : string) (s : option Element) : option Element :=
  set_attributes <[name := value]> <$> s.
Definition attr_get (name : string) (s : option Element) : option string :=
  s ≫= fun e => attributes e !! name.

(** [.height()] on a set of at most one element. *)
Definition jq_height (s : option Element) : option Z := height <$> s.

(** [.slideDown( { duration: d, ... } )] and [.slideUp( ... )]: the
    animation is only requested here; it runs after the call returns. *)
Definition slideDown (d : option Z) (s : option Element) : option Element :=
  push_fx (SlideDown, d) <$> s.
Definition slideUp (d : option Z) (s : option Element) : option Element :=
  push_fx (SlideUp, d) <$> s.

(** ** Durations *)

(** [$.fn.expandable.constrainValue] *)
Definition constrainValue (min max duration : Z) : Z :=
  if duration >? max then max
  else if duration <? min then min
  else duration.

(** [$.fn.expandable.calculateExpandDuration] *)
Definition calculateExpandDuration (height : Z) : Z :=
  constrainValue 450 900 (height * 4).

(** [$.fn.expandable.calculateCollapseDuration] *)
Definition calculateCollapseDuration (height : Z) : Z :=
  constrainValue 350 900 (height * 2).

(** The clamp of the specification, in its words: below the minimum the
    minimum, above the maximum the maximum, otherwise the value. *)
Definition clamp (v min max : Z) : Z :=
  if v <? min then min
  else if v >? max then max
  else v.

(** ** The widget instance *)

(** The container element together with what the widget reads around it:
    the first trigger and the first content region below it, its parent
    in the tree, and the accordion flag of its group ancestor,
    [Boolean( $el.parents( '.expandable-group' ).data( 'accordion' ) )].
    Container, trigger and content are three different elements. *)
Record Node := mkNode {
  el : Element;                (* $el *)
  target : option Element;     (* $el.find( '.expandable_target:first' ) *)
  content : option Element;    (* $el.find( '.expandable_content:first' ) *)
  parentNode : option nat;     (* identity of the parent element *)
  accordionData : bool
}.

Record Expandable := mkExpandable {
  isInAccordion : bool;
  expandedClass : string;
  throttleDuration : Z;
  isExpanded : bool;
  node : Node
}.

(** [Expandable.expand]; [duration] is [None] for [undefined]. *)
Definition expand (duration : option Z) (this : Expandable) : Expandable :=
  let n := node this in
  let target1 := attr "aria-pressed" "true" (target n) in
  let content1 := attr "aria-expanded" "true" (content n) in
  let duration1 :=
    match duration with
    | None => calculateExpandDuration <$> jq_height content1
    | Some d => Some d
    end in
  let el1 := addClass (expandedClass this) (el n) in
  let content2 := slideDown duration1 content1 in
  mkExpandable (isInAccordion this) (expandedClass this)
    (throttleDuration this) true
    (mkNode el1 target1 content2 (parentNode n) (accordionData n)).

(** [Expandable.collapse] *)
Definition collapse (duration : option Z) (this : Expandable) : Expandable :=
  let n := node this in
  let target1 := attr "aria-pressed" "false" (target n) in
  let content1 := attr "aria-expanded" "false" (content n) in
  let duration1 :=
    match duration with
    | None => calculateCollapseDuration <$> jq_height content1
    | Some d => Some d
    end in
  let el1 := removeClass (expandedClass this) (el n) in
  let content2 := slideUp duration1 content1 in
  mkExpandable (isInAccordion this) (expandedClass this)
    (throttleDuration this) false
    (mkNode el1 target1 content2 (parentNode n) (accordionData n)).

(** ** Creation *)

(** The recognised options of [$( ... ).expandable( options )]; a key
    that is absent or [undefined] is [None]. *)
Record Options := mkOptions {
  opt_isInAccordion : option bool;
  opt_expandedClass : option string;
  opt_throttleDuration : option Z
}.

Record Properties := mkProperties {
  prop_isInAccordion : bool;
  prop_expandedClass : string;
  prop_throttleDuration : Z
}.

(** [Expandable.defaultProperties] *)
Definition defaultProperties : Properties :=
  mkProperties false "expandable__expanded" 450.

(** [_extend( true, {}, defaults, options )] on the recognised keys:
    [$.extend] copies every key of [options] whose value is not
    [undefined] over the copy of the defaults. *)
Definition _extend (defaults : Properties) (options : Options) : Properties :=
  mkProperties
    (default (prop_isInAccordion defaults) (opt_isInAccordion options))
    (default (prop_expandedClass defaults) (opt_expandedClass options))
    (default (prop_throttleDuration defaults) (opt_throttleDuration options)).

(** [Expandable.initUI].  The two [find] calls are the [target] and
    [content] of the node.  [.attr( 'aria-controls', undefined )] is a
    read in jQuery and sets nothing. *)
Definition initUI (this : Expandable) : Expandable :=
  let n := node this in
  let target1 :=
    match attr_get "id" (content n) with
    | Some id => attr "aria-controls" id (target n)
    | None => target n
    end in
  let this1 :=
    mkExpandable (isInAccordion this) (expandedClass this)
      (throttleDuration this) (isExpanded this)
      (mkNode (el n) target1 (content n) (parentNode n) (accordionData n)) in
  if isExpanded this1 then expand (Some 0) this1 else collapse (Some 0) this1.

(** [Expandable.init], up to [initEvents], which binds the click handler
    (see [initEvents] below). *)
Definition init (this : Expandable) : Expandable :=
  let this1 :=
    mkExpandable (accordionData (node this)) (expandedClass this)
      (throttleDuration this) (isExpanded this) (node this) in
  let this2 :=
    mkExpandable (isInAccordion this1) (expandedClass this1)
      (throttleDuration this1)
      (hasClass (expandedClass this1) (el (node this1))) (node this1) in
  initUI this2.

(** [Expandable.create], called on the container [n] with [options.$el]
    set to it.  [isExpanded] does not exist before [init] assigns it. *)
Definition create (options : Options) (n : Node) : Expandable :=
  let properties := _extend defaultProperties options in
  init (mkExpandable (prop_isInAccordion properties)
          (prop_expandedClass properties) (prop_throttleDuration properties)
          false n).

(** [$.fn.expandable]: [create] on each element of the selection. *)
Definition expandable (options : Options) (selection : list Node)
  : list Expandable := create options <$> selection.

(** ** Toggle *)

(** The page: every widget instance, identified by its position.  The
    script initialises every [.expandable] element when it loads, so an
    element that [.siblings( '.expandable' )] returns is an instance. *)
Abbreviation Page := (list Expandable).

(** A click event.  [toggle] calls [preventDefault] and
    [stopPropagation] on it, which change the event and no widget. *)
Inductive Event := Click.

(** [j] is in [this.$el.siblings( '.expandable' )], [this] being the
    widget at position [i]: another element below the same parent that
    carries the class [expandable]. *)
Definition is_sibling (i : nat) (this : Expandable) (j : nat) (s : Expandable)
  : bool :=
  bool_decide (j ≠ i)
  && match parentNode (node this), parentNode (node s) with
     | Some p, Some q => bool_decide (p = q)
     | _, _ => false
     end
  && hasClass "expandable" (el (node s)).

Definition sibling_at (i : nat) (this : Expandable) (page : Page) (j : nat)
  : bool :=
  match page !! j with
  | Some s => is_sibling i this j s
  | None => false
  end.

Definition siblings (i : nat) (this : Expandable) (page : Page) : list nat :=
  List.filter (sibling_at i this page) (seq 0 (length page)).

(** [.each( function( index, sibling ) { sibling.collapse(); } )] *)
Definition collapse_each (js : list nat) (page : Page) : Page :=
  foldl (fun p j => alter (collapse None) j p) page js.

(** [Expandable.toggle] of the widget at position [i]. *)
Definition toggle (i : nat) (event : Event) (page : Page) : Page :=
  match page !! i with
  | None => page
  | Some this =>
      if isExpanded this then alter (collapse None) i page
      else
        let page1 :=
          if isInAccordion this
          then collapse_each (siblings i this page) page
          else page in
        alter (expand None) i page1
  end.

(** ** Throttle *)

(** [window.setTimeout( f, duration )] in a browser takes the delay as
    a 32-bit integer: the number wraps around, and a negative delay
    counts as zero.  From 0 to 2^31 - 1 the delay is the number. *)
Definition to_int32 (z : Z) : Z := (z + 2 ^ 31) mod 2 ^ 32 - 2 ^ 31.
Definition timeout_delay (duration : Z) : Z := Z.max 0 (to_int32 duration).

(** How a call of the callback ends, and the state it leaves. *)
Inductive Completion (C : Type) :=
  | Returns (ctx : C)
  | Throws (ctx : C).
Arguments Returns {C} ctx.
Arguments Throws {C} ctx.

(** What the event loop runs, one task after the other: an activation
    of the throttled handler with its event, or the timeouts of the
    closure.  [now] is the time of the task in ms. *)
Inductive Task (E : Type) :=
  | Activation (now : Z) (event : E)
  | Timeout (now : Z).
Arguments Activation {E} now event.
Arguments Timeout {E} now.

Definition task_time {E : Type} (task : Task E) : Z :=
  match task with
  | Activation now _ => now
  | Timeout now => now
  end.

Section Throttle.
Context {C E : Type}.

(** The state of one [_throttle] closure and of what it acts on: the
    captured flag [isThrottling], the deadlines of the timeouts the
    closure has pending in the window, and the state [C] that the
    callback changes. *)
Record Throttle := mkThrottle {
  isThrottling : bool;
  timers : list Z;
  context : C
}.

(** The two other captured variables of the closure.  They never change,
    so they are parameters of [_delay] here and not part of the state. *)
Variable duration : Z.
Variable callback : E -> C -> Completion C.

(** [_throttle( duration, callback, context )]: the state of the fresh
    closure, [isThrottling = false] and no timeout pending. *)
Definition _throttle (ctx : C) : Throttle := mkThrottle false [] ctx.

(** The returned function [_delay], called at time [now].  The flag is
    set before the callback runs; when the callback throws, [_delay] is
    left before it sets the timeout. *)
Definition _delay (now : Z) (event : E) (s : Throttle) : Throttle :=
  if isThrottling s then s
  else
    match callback event (context s) with
    | Returns ctx =>
        mkThrottle true (timers s ++ [now + timeout_delay duration]) ctx
    | Throws ctx => mkThrottle true (timers s) ctx
    end.

(** The timeouts of the closure as a task at time [now]: each one whose
    deadline has come runs its function, [isThrottling = false], and is
    gone; the others stay pending. *)
Definition run_timers (now : Z) (s : Throttle) : Throttle :=
  match filter (fun t => t <= now) (timers s) with
  | [] => s
  | _ :: _ =>
      mkThrottle false (filter (fun t => ¬ t <= now) (timers s)) (context s)
  end.

Definition perform (s : Throttle) (task : Task E) : Throttle :=
  match task with
  | Activation now event => _delay now event s
  | Timeout now => run_timers now s
  end.

(** Tasks in the order in which the event loop runs them. *)
Definition perform_all (tasks : list (Task E)) (s : Throttle) : Throttle :=
  foldl perform s tasks.

(** The state in which an activation at time [t] that ran the callback
    to its end leaves the closure: throttling, with one timeout
    pending. *)
Definition throttling_since (t : Z) (ctx : C) : Throttle :=
  mkThrottle true [t + timeout_delay duration] ctx.
End Throttle.

Arguments Throttle : clear implicits.

(** A callback that returns whatever it is called on. *)
Definition returning {C E : Type} (f : E -> C -> C) (event : E) (ctx : C)
  : Completion C := Returns (f event ctx).

(** The tasks that are activations, with their times. *)
Definition activations_of {E : Type} (tasks : list (Task E)) : list (Z * E) :=
  omap (fun task => match task with
                    | Activation now event => Some (now, event)
                    | Timeout _ => None
                    end) tasks.

(** The tasks come in the order of their times. *)
Definition in_time_order {E : Type} (tasks : list (Task E)) : Prop :=
  StronglySorted (fun x y => task_time x <= task_time y) tasks.

(** The callback of the widget at position [i]: [toggle] on a page of
    instances, with a jQuery event, returns. *)
Definition toggle_callback (i : nat) : Event -> Page -> Completion Page :=
  returning (toggle i).

(** [Expandable.initEvents] binds
    [_throttle( this.throttleDuration, this.toggle, this )] to the
    trigger; the callback acts on the page, so the page is the state the
    fresh closure starts on. *)
Definition initEvents (page : Page) : Throttle Page := _throttle page.

(** A click at time [now] on the trigger of the widget [this] at
    position [i], [s] being the state of the handler bound to it. *)
Definition click (i : nat) (this : Expandable) (now : Z) (s : Throttle Page)
  : Throttle Page :=
  _delay (throttleDuration this) (toggle_callback i) now Click s.

(** ** What a caller observes of a widget *)

Definition marker (this : Expandable) : bool :=
  hasClass (expandedClass this) (el (node this)).
Definition aria_pressed (this : Expandable) : option string :=
  attr_get "aria-pressed" (target (node this)).
Definition aria_expanded (this : Expandable) : option string :=
  attr_get "aria-expanded" (content (node this)).

Record Observation := mkObservation {
  obs_isExpanded : bool;
  obs_marker : bool;
  obs_pressed : option string;
  obs_expanded : option string
}.

Definition observe (this : Expandable) : Observation :=
  mkObservation (isExpanded this) (marker this)
    (aria_pressed this) (aria_expanded this).

(** [isExpanded] mirrors the marker class of the container. *)
Definition in_sync (this : Expandable) : Prop :=
  isExpanded this = marker this.

(** The observation of a widget in its expanded and in its collapsed
    state.  A trigger or content region that does not exist has no
    attribute. *)
Definition shown (flag : string) (this : Expandable) : Observation :=
  mkObservation (bool_decide (flag = "true")) (bool_decide (flag = "true"))
    (const flag <$> target (node this)) (const flag <$> content (node this)).

(** ** Accordion groups *)

(** The expandables below the parent [p]. *)
Definition member (p : nat) (this : Expandable) : bool :=
  bool_decide (parentNode (node this) = Some p)
  && hasClass "expandable" (el (node this)).

(** At most one member below [p] is expanded. *)
Definition at_most_one_expanded (p : nat) (page : Page) : Prop :=
  forall j k wj wk,
    page !! j = Some wj -> page !! k = Some wk ->
    member p wj = true -> member p wk = true ->
    isExpanded wj = true -> isExpanded wk = true -> j = k.

(** Exclusivity as an unconditional statement: no toggle of an accordion
    member leaves two members of a group expanded, whatever the page was
    before. *)
Definition accordion_exclusive : Prop :=
  forall (page : Page) i this ev p,
    page !! i = Some this -> isInAccordion this = true ->
    at_most_one_expanded p (toggle i ev page).

(** ** Option precedence *)

(** Precedence of the caller for all three recognised options: whatever
    value the caller gives is the value of the instance property after
    creation. *)
Definition caller_precedence : Prop :=
  forall options n,
    (forall v, opt_isInAccordion options = Some v ->
               isInAccordion (create options n) = v)
    /\ (forall v, opt_expandedClass options = Some v ->
                  expandedClass (create options n) = v)
    /\ (forall v, opt_throttleDuration options = Some v ->
                  throttleDuration (create options n) = v).

(** ** Sample markup

    An accordion group (parent 0) of three expandables, each with a
    trigger and a content region 100 pixels high; [open] is whether the
    markup carries the class [expandable__expanded]. *)

Definition sample_node (id : string) (open : bool) (accordion : bool) : Node :=
  mkNode
    (mkElement
       (if open then ["expandable"; "expandable__expanded"] else ["expandable"])
       ∅ 100 [])
    (Some (mkElement ["expandable_target"] ∅ 20 []))
    (Some (mkElement ["expandable_content"] {[ "id" := id ]} 100 []))
    (Some 0%nat) accordion.

Definition no_options : Options := mkOptions None None None.

(** A and C closed, B open. *)
Definition sample_page : Page :=
  expandable no_options
    [sample_node "a" false true; sample_node "b" true true;
     sample_node "c" false true].

(** All three open in the markup. *)
Definition all_open_page : Page :=
  expandable no_options
    [sample_node "a" true true; sample_node "b" true true;
     sample_node "c" true true].

(** One widget of that markup after creation. *)
Definition sample_widget (open : bool) : Expandable :=
  create no_options (sample_node "a" open true).

(** A closed widget created with the empty string as [expandedClass]. *)
Definition unmarked_widget : Expandable :=
  create (mkOptions None (Some "") None) (sample_node "a" false false).

(** ** Teardown *)

(** [Expandable.destroy]: [this.$el.remove()] takes the container, with
    all that is below it, out of the document.  The removed element has
    no parent and no group ancestor any more; the instance keeps its
    state.  Every instance has its [$el], so the guard of [destroy] is
    passed. *)
Definition destroy (this : Expandable) : Expandable :=
  let n := node this in
  mkExpandable (isInAccordion this) (expandedClass this)
    (throttleDuration this) (isExpanded this)
    (mkNode (el n) (target n) (content n) None false).

(** ** The claims on marker and throttle as they are stated *)

(** Flag and marker class agree after every [expand] and [collapse],
    whatever the widget. *)
Definition marker_mirrored : Prop :=
  forall this d,
    isExpanded (expand d this) = marker (expand d this)
    /\ isExpanded (collapse d this) = marker (collapse d this).

(** An activation is ignored whenever it comes before [duration] ms
    have passed since the one that ran, whatever the duration and
    whenever the event loop runs the timeouts in between. *)
Definition throttle_window : Prop :=
  forall (duration : Z) (calls : nat) (t0 tf t : Z),
    t0 <= tf <= t -> t < t0 + duration ->
    context
      (perform_all duration (returning (fun (_ : Event) (n : nat) => S n))
         [Activation t0 Click; Timeout tf; Activation t Click]
         (_throttle calls))
    = S calls.

(** ** The document after the script has run *)

(** One click handler that [initEvents] has bound: the [duration] its
    [_throttle] closure captured, the [isThrottling] flag and the
    timeouts the closure has pending. *)
Record Bound := mkBound {
  bound_duration : Z;
  bound_throttling : bool;
  bound_timers : list Z
}.

(** Every instance, and for each the handlers bound to its container in
    the order in which they were bound. *)
Record Document := mkDocument {
  widgets : Page;
  handlers : list (list Bound)
}.

(** The handler that [initEvents] binds for [this]. *)
Definition bind (this : Expandable) : Bound :=
  mkBound (throttleDuration this) false [].

(** [$( '.expandable' ).expandable()], with [options] when the caller
    runs the plugin: [create] and with it [initEvents] on each element
    of the selection. *)
Definition load (options : Options) (selection : list Node) : Document :=
  mkDocument (expandable options selection)
    ((fun w => [bind w]) <$> expandable options selection).

(** The plugin run once more on the elements that are instances
    already: [create] extends the element again, [init] reads its state
    from the document again, and [initEvents] binds one more handler
    beside those that are there. *)
Definition load_again (options : Options) (doc : Document) : Document :=
  let page := create options ∘ node <$> widgets doc in
  mkDocument page
    (zip_with (fun w hs => (hs ++ [bind w])%list) page (handlers doc)).

(** One handler of the instance at position [i] is called at time
    [now]: its closure decides, the callback works on the page. *)
Definition handle (i : nat) (now : Z) (acc : Page * list Bound) (h : Bound)
  : Page * list Bound :=
  let s :=
    _delay (bound_duration h) (toggle_callback i) now Click
      (mkThrottle (bound_throttling h) (bound_timers h) acc.1) in
  (context s,
   (acc.2 ++ [mkBound (bound_duration h) (isThrottling s) (timers s)])%list).

(** A click at time [now] on the trigger of the instance at position
    [i] calls the handlers of its container one after the other. *)
Definition click_at (i : nat) (now : Z) (doc : Document) : Document :=
  match handlers doc !! i with
  | Some hs =>
      let r := foldl (handle i now) (widgets doc, []) hs in
      mkDocument r.1 (<[i := r.2]> (handlers doc))
  | None => doc
  end.

(** The timeouts of one handler as a task at time [now]. *)
Definition expire (now : Z) (h : Bound) : Bound :=
  let s :=
    run_timers now (mkThrottle (bound_throttling h) (bound_timers h) ()) in
  mkBound (bound_duration h) (isThrottling s) (timers s).

(** The event loop runs, at time [now], the timeouts of the handler
    number [k] of the instance at position [i]. *)
Definition timeout_at (i k : nat) (now : Z) (doc : Document) : Document :=
  mkDocument (widgets doc) (alter (alter (expire now) k) i (handlers doc)).

(** [destroy] of the instance at position [i]; jQuery's [remove] takes
    the handlers of the removed element away with it. *)
Definition destroy_at (i : nat) (doc : Document) : Document :=
  mkDocument (alter destroy i (widgets doc)) (<[i := []]> (handlers doc)).

(** What happens to a document: clicks on triggers, timeouts that the
    event loop runs, and teardowns. *)
Inductive Action :=
  | ClickAt (i : nat) (now : Z)
  | TimeoutAt (i k : nat) (now : Z)
  | DestroyAt (i : nat).

Definition step (doc : Document) (a : Action) : Document :=
  match a with
  | ClickAt i now => click_at i now doc
  | TimeoutAt i k now => timeout_at i k now doc
  | DestroyAt i => destroy_at i doc
  end.

Definition run (actions : list Action) (doc : Document) : Document :=
  foldl step doc actions.

(** Every widget below [p] is an accordion member as far as [toggle] is
    concerned. *)
Definition accordion_below (p : nat) (page : Page) : Prop :=
  Forall (fun w => parentNode (node w) = Some p -> isInAccordion w = true)
    page.

(** Every widget has one class name as its marker. *)
Definition markers_named (page : Page) : Prop :=
  Forall (fun w => class_name (expandedClass w)) page.

(** ** Which activations a throttled handler lets through *)

Section Accepted.
Context {E : Type}.
Variable duration : Z.

(** The reference for the throttle: going through the tasks in the
    order in which they run, an activation is let through when no
    timeout is pending, and then its timeout is; a timeout task whose
    time has reached the deadline of the pending timeout ends it. *)
Fixpoint accepted (pending : option Z) (tasks : list (Task E))
  : list (Z * E) :=
  match tasks with
  | [] => []
  | Activation now event :: tasks' =>
      match pending with
      | None =>
          (now, event) :: accepted (Some (now + timeout_delay duration)) tasks'
      | Some _ => accepted pending tasks'
      end
  | Timeout now :: tasks' =>
      match pending with
      | Some deadline =>
          accepted (if bool_decide (deadline <= now) then None else pending)
            tasks'
      | None => accepted None tasks'
      end
  end.
End Accepted.

(** * Properties *)

(** ** Durations *)

Lemma constrainValue_cases (min max v : Z) :
  (max < v /\ constrainValue min max v = max)
  \/ (v <= max /\ v < min /\ constrainValue min max v = min)
  \/ (min <= v <= max /\ constrainValue min max v = v).
Proof.
  unfold constrainValue.
  destruct (Z.gtb_spec v max), (Z.ltb_spec v min); lia.
Qed.

Lemma constrainValue_clamp (min max v : Z) :
  min <= max -> constrainValue min max v = clamp v min max.
Proof.
  intros Hle. unfold clamp.
  destruct (constrainValue_cases min max v) as [[? ->] | [[? [? ->]] | [? ->]]],
    (Z.ltb_spec v min), (Z.gtb_spec v max); lia.
Qed.

Lemma constrainValue_range (min max v : Z) :
  min <= max -> min <= constrainValue min max v <= max.
Proof.
  intros Hle.
  destruct (constrainValue_cases min max v) as [[? ->] | [[? [? ->]] | [? ->]]];
    lia.
Qed.

(** C1: for every height >= 0, [calculateExpandDuration height] is
    [constrainValue 450 900 (height * 4)], which is the clamp of
    [height * 4] to the interval from 450 to 900, and lies in that
    interval. *)
Theorem calculateExpandDuration_spec (height : Z) :
  0 <= height ->
  calculateExpandDuration height = constrainValue 450 900 (height * 4)
  /\ calculateExpandDuration height = clamp (height * 4) 450 900
  /\ 450 <= calculateExpandDuration height <= 900.
Proof.
  intros _. unfold calculateExpandDuration. split; [reflexivity |].
  split; [apply constrainValue_clamp | apply constrainValue_range]; lia.
Qed.

Lemma calculateExpandDuration_spec_witness :
  0 <= 100
  /\ calculateExpandDuration 100 = constrainValue 450 900 (100 * 4)
  /\ calculateExpandDuration 100 = clamp (100 * 4) 450 900
  /\ 450 <= calculateExpandDuration 100 <= 900.
Proof.
  split; [lia | apply (calculateExpandDuration_spec 100); lia].
Defined.

(** C2: for every height >= 0, [calculateCollapseDuration height] is
    [constrainValue 350 900 (height * 2)], which is the clamp of
    [height * 2] to the interval from 350 to 900, and lies in that
    interval. *)
Theorem calculateCollapseDuration_spec (height : Z) :
  0 <= height ->
  calculateCollapseDuration height = constrainValue 350 900 (height * 2)
  /\ calculateCollapseDuration height = clamp (height * 2) 350 900
  /\ 350 <= calculateCollapseDuration height <= 900.
Proof.
  intros _. unfold calculateCollapseDuration. split; [reflexivity |].
  split; [apply constrainValue_clamp | apply constrainValue_range]; lia.
Qed.

Lemma calculateCollapseDuration_spec_witness :
  0 <= 300
  /\ calculateCollapseDuration 300 = constrainValue 350 900 (300 * 2)
  /\ calculateCollapseDuration 300 = clamp (300 * 2) 350 900
  /\ 350 <= calculateCollapseDuration 300 <= 900.
Proof.
  split; [lia | apply (calculateCollapseDuration_spec 300); lia].
Defined.

(** C3: for [min <= max], [constrainValue min max v] is [min] when
    [v < min], [max] when [v > max], and [v] itself when
    [min <= v <= max]. *)
Theorem constrainValue_spec (min max v : Z) :
  min <= max ->
  (v < min -> constrainValue min max v = min)
  /\ (v > max -> constrainValue min max v = max)
  /\ (min <= v <= max -> constrainValue min max v = v).
Proof.
  intros Hle.
  destruct (constrainValue_cases min max v) as [[? ->] | [[? [? ->]] | [? ->]]];
    repeat split; intros; lia.
Qed.

Lemma constrainValue_spec_witness :
  350 <= 900
  /\ constrainValue 350 900 200 = 350
  /\ constrainValue 350 900 1000 = 900
  /\ constrainValue 350 900 500 = 500.
Proof.
  assert (350 <= 900) as Hle by lia.
  split; [exact Hle |]. split; [| split].
  - apply (proj1 (constrainValue_spec 350 900 200 Hle)); lia.
  - apply (proj1 (proj2 (constrainValue_spec 350 900 1000 Hle))); lia.
  - apply (proj2 (proj2 (constrainValue_spec 350 900 500 Hle))); lia.
Defined.

(** C9: the upper bound is checked first, so when [min > max] and
    [duration > max] the result is [max], which is below [min]. *)
Theorem constrainValue_upper_first (min max duration : Z) :
  min > max -> duration > max ->
  constrainValue min max duration = max
  /\ constrainValue min max duration < min.
Proof.
  intros Hgt Hd.
  destruct (constrainValue_cases min max duration)
    as [[? ->] | [[? [? ->]] | [? ->]]]; lia.
Qed.

Lemma constrainValue_upper_first_witness :
  900 > 450 /\ 600 > 450
  /\ constrainValue 900 450 600 = 450
  /\ constrainValue 900 450 600 < 900.
Proof.
  split; [lia | split; [lia |]].
  apply (constrainValue_upper_first 900 450 600); lia.
Defined.

(** ** Class names *)

Lemma add_names_elem (ts l : list string) (x : string) :
  x ∈ add_names ts l <-> x ∈ l \/ x ∈ ts.
Proof.
  unfold add_names. revert l.
  induction ts as [| t ts IH]; intros l; simpl.
  - rewrite elem_of_nil. tauto.
  - rewrite IH, elem_of_cons. case_bool_decide as Ht.
    + split; [tauto |]. intros [? | [-> | ?]]; auto.
    + rewrite elem_of_app, list_elem_of_singleton. tauto.
Qed.

Lemma add_names_present (ts l : list string) :
  (forall t, t ∈ ts -> t ∈ l) -> add_names ts l = l.
Proof.
  unfold add_names. induction ts as [| t ts IH]; intros Hts; simpl;
    [reflexivity |].
  rewrite bool_decide_eq_true_2 by (apply Hts; left).
  apply IH. intros x Hx. apply Hts. by right.
Qed.

Lemma add_names_idem (ts l : list string) :
  add_names ts (add_names ts l) = add_names ts l.
Proof.
  apply add_names_present. intros t Ht. apply add_names_elem. by right.
Qed.

Lemma add_names_NoDup (ts l : list string) :
  NoDup l -> NoDup (add_names ts l).
Proof.
  unfold add_names. revert l.
  induction ts as [| t ts IH]; intros l Hl; simpl; [assumption |].
  apply IH. case_bool_decide as Ht; [assumption |].
  apply NoDup_app. split; [assumption |].
  split; [| apply NoDup_singleton].
  intros x Hx ->%list_elem_of_singleton. contradiction.
Qed.

Lemma remove_names_idem (ts l : list string) :
  remove_names ts (remove_names ts l) = remove_names ts l.
Proof.
  unfold remove_names. rewrite list_filter_filter.
  apply list_filter_iff. tauto.
Qed.

Lemma remove_names_absent (ts l : list string) :
  (forall t, t ∈ ts -> t ∉ l) -> remove_names ts l = l.
Proof.
  unfold remove_names. induction l as [| x l IH]; intros Hts;
    [reflexivity |].
  rewrite filter_cons_True.
  - rewrite IH; [reflexivity |].
    intros t Ht Hl. apply (Hts t Ht). by right.
  - intros Hx. apply (Hts x Hx). by left.
Qed.

Lemma starts_with_elem (ts l : list string) (t : string) :
  starts_with ts l = true -> t ∈ ts -> t ∈ l.
Proof.
  revert l. induction ts as [| t' ts IH]; intros l Hs Ht;
    [by apply elem_of_nil in Ht |].
  destruct l as [| x l]; [discriminate |]. simpl in Hs.
  apply andb_true_iff in Hs as [->%bool_decide_eq_true Hs].
  apply elem_of_cons in Ht as [-> | Ht]; [by left | right; by apply IH].
Qed.

(** Names that stand next to each other in a class attribute are names
    of it. *)
Lemma occurs_elem (ts l : list string) (t : string) :
  occurs ts l = true -> t ∈ ts -> t ∈ l.
Proof.
  induction l as [| x l IH]; simpl; intros Ho Ht.
  - rewrite orb_false_r in Ho. by apply (starts_with_elem ts []).
  - apply orb_true_iff in Ho as [Hs | Ho].
    + by apply (starts_with_elem ts (x :: l)).
    + right. by apply IH.
Qed.

Lemma occurs_singleton (c : string) (l : list string) :
  occurs [c] l = bool_decide (c ∈ l).
Proof.
  induction l as [| x l IH]; simpl; [reflexivity |].
  rewrite IH, andb_true_r.
  destruct (decide (c = x)) as [-> | Hne].
  - rewrite (bool_decide_eq_true_2 (x = x)) by reflexivity. simpl.
    symmetry. apply bool_decide_eq_true. by left.
  - rewrite (bool_decide_eq_false_2 (c = x)) by assumption. simpl.
    apply bool_decide_ext. rewrite elem_of_cons. tauto.
Qed.

(** A string of visible characters is one name. *)
Lemma visible_not_white (a : ascii) :
  is_visible a = true -> is_white a = false.
Proof.
  destruct a as [[] [] [] [] [] [] [] []]; vm_compute; congruence.
Qed.

Lemma append_nil_r (s : string) : s +:+ "" = s.
Proof.
  induction s as [| a s IH]; [reflexivity |].
  change (String a (s +:+ "") = String a s). by f_equal.
Qed.

Lemma append_snoc (s s' : string) (a : ascii) :
  (s +:+ String a "") +:+ s' = s +:+ String a s'.
Proof.
  induction s as [| b s IH]; [reflexivity |].
  change (String b ((s +:+ String a "") +:+ s') = String b (s +:+ String a s')).
  by f_equal.
Qed.

Lemma tokens_from_visible (s cur : string) :
  all_visible s = true -> cur +:+ s <> "" ->
  tokens_from cur s = [cur +:+ s].
Proof.
  revert cur. induction s as [| a s IH]; intros cur Hs Hne; simpl.
  - rewrite append_nil_r in *. by rewrite bool_decide_eq_false_2.
  - simpl in Hs. apply andb_true_iff in Hs as [Ha Hs].
    rewrite (visible_not_white a Ha).
    rewrite IH, append_snoc; [reflexivity | assumption |].
    by rewrite append_snoc.
Qed.

Lemma class_name_tokens (c : string) :
  class_name c -> classesToArray c = [c].
Proof.
  unfold class_name, classesToArray. intros Hc.
  destruct c as [| a c]; [discriminate |].
  by apply (tokens_from_visible (String a c) "").
Qed.

(** For one class name the three functions are membership, adding the
    name when it is not there, and taking it off. *)
Lemma hasClass_class_name (c : string) (e : Element) :
  class_name c -> hasClass c e = bool_decide (c ∈ className e).
Proof.
  intros Hc. unfold hasClass. rewrite (class_name_tokens c Hc); simpl.
  rewrite bool_decide_eq_true_2 by reflexivity. apply occurs_singleton.
Qed.

Lemma addClass_class_name (c : string) (e : Element) :
  class_name c ->
  className (addClass c e)
  = if bool_decide (c ∈ className e) then className e
    else (className e ++ [c])%list.
Proof.
  intros Hc. unfold addClass. by rewrite (class_name_tokens c Hc).
Qed.

Lemma removeClass_class_name (c : string) (e : Element) :
  class_name c ->
  className (removeClass c e) = filter (fun x => x ≠ c) (className e).
Proof.
  intros Hc. unfold removeClass, remove_names.
  rewrite (class_name_tokens c Hc); simpl.
  apply list_filter_iff. intros x. by rewrite list_elem_of_singleton.
Qed.

Lemma hasClass_addClass (c : string) (e : Element) :
  class_name c -> hasClass c (addClass c e) = true.
Proof.
  intros Hc. rewrite hasClass_class_name, addClass_class_name by assumption.
  apply bool_decide_eq_true.
  case_bool_decide; [assumption |].
  apply elem_of_app; right. by apply list_elem_of_singleton.
Qed.

(** Whatever the string, [addClass] changes nothing on an element that
    has it, and [removeClass] does not make an element have it. *)
Lemma addClass_present (c : string) (e : Element) :
  hasClass c e = true -> addClass c e = e.
Proof.
  unfold hasClass, addClass, set_className. intros Hc.
  rewrite add_names_present; [by destruct e |].
  destruct (classesToArray c) as [| t ts]; [by intros ? ?%elem_of_nil |].
  apply andb_true_iff in Hc as [_ Ho]. intros x. by apply occurs_elem.
Qed.

Lemma hasClass_removeClass (c : string) (e : Element) :
  hasClass c e = false -> hasClass c (removeClass c e) = false.
Proof.
  unfold hasClass, removeClass; simpl.
  destruct (classesToArray c) as [| t ts] eqn:Hts.
  - rewrite (remove_names_absent []); [auto |]. by intros ? ?%elem_of_nil.
  - intros _. apply andb_false_iff; right.
    apply not_true_is_false. intros Ho.
    assert (t ∈ remove_names (t :: ts) (className e)) as Ht
      by (apply (occurs_elem (t :: ts)); [assumption | by left]).
    apply list_elem_of_filter in Ht as [Ht _]. apply Ht. by left.
Qed.

Lemma addClass_idem (c : string) (e : Element) :
  addClass c (addClass c e) = addClass c e.
Proof.
  unfold addClass, set_className; simpl. by rewrite add_names_idem.
Qed.

Lemma removeClass_idem (c : string) (e : Element) :
  removeClass c (removeClass c e) = removeClass c e.
Proof.
  unfold removeClass, set_className; simpl. by rewrite remove_names_idem.
Qed.



Lemma filter_ne_absent (c : string) (l : list string) :
  c ∉ l -> filter (fun x => x ≠ c) l = l.
Proof.
  induction l as [| x l IH]; [reflexivity |].
  rewrite not_elem_of_cons. intros [Hx Hl].
  rewrite filter_cons_True by congruence. by rewrite IH.
Qed.

Lemma removeClass_absent (c : string) (e : Element) :
  class_name c -> hasClass c e = false -> removeClass c e = e.
Proof.
  intros Hc Hm. rewrite hasClass_class_name in Hm by assumption.
  apply bool_decide_eq_false in Hm.
  pose proof (removeClass_class_name c e Hc) as Hl.
  rewrite filter_ne_absent in Hl by assumption.
  unfold removeClass, set_className in *. simpl in Hl. rewrite Hl.
  by destruct e.
Qed.

(** ** Expand and collapse on one widget *)

Lemma attr_get_attr (name value : string) (s : option Element) :
  attr_get name (attr name value s) = const value <$> s.
Proof.
  destruct s as [e |]; [| reflexivity].
  simpl. by rewrite lookup_insert_eq.
Qed.

Lemma attr_get_attr_ne (name name' value : string) (s : option Element) :
  name <> name' -> attr_get name (attr name' value s) = attr_get name s.
Proof.
  intros Hne. destruct s as [e |]; [| reflexivity].
  simpl. by rewrite lookup_insert_ne by congruence.
Qed.

Lemma attr_get_slide (name : string) (a : Animation) (s : option Element) :
  attr_get name (push_fx a <$> s) = attr_get name s.
Proof. by destruct s. Qed.

Lemma aria_expand (d : option Z) (this : Expandable) :
  aria_pressed (expand d this) = const "true" <$> target (node this)
  /\ aria_expanded (expand d this) = const "true" <$> content (node this).
Proof.
  unfold aria_pressed, aria_expanded; simpl.
  rewrite attr_get_attr. unfold slideDown.
  by rewrite attr_get_slide, attr_get_attr.
Qed.

Lemma aria_collapse (d : option Z) (this : Expandable) :
  aria_pressed (collapse d this) = const "false" <$> target (node this)
  /\ aria_expanded (collapse d this) = const "false" <$> content (node this).
Proof.
  unfold aria_pressed, aria_expanded; simpl.
  rewrite attr_get_attr. unfold slideUp.
  by rewrite attr_get_slide, attr_get_attr.
Qed.

(** Which elements exist does not change, so neither does the
    observation that counts as expanded or as collapsed. *)
Lemma shown_expand (flag : string) (d : option Z) (this : Expandable) :
  shown flag (expand d this) = shown flag this.
Proof.
  unfold shown; simpl.
  by destruct (target (node this)), (content (node this)).
Qed.

Lemma shown_collapse (flag : string) (d : option Z) (this : Expandable) :
  shown flag (collapse d this) = shown flag this.
Proof.
  unfold shown; simpl.
  by destruct (target (node this)), (content (node this)).
Qed.

Lemma marker_expand (d : option Z) (this : Expandable) :
  class_name (expandedClass this) -> marker (expand d this) = true.
Proof. intros Hc. unfold marker; simpl. by apply hasClass_addClass. Qed.

Lemma marker_collapse (d : option Z) (this : Expandable) :
  class_name (expandedClass this) -> marker (collapse d this) = false.
Proof.
  intros Hc. unfold marker; simpl.
  rewrite hasClass_class_name, removeClass_class_name by assumption.
  apply bool_decide_eq_false. intros [Hne _]%list_elem_of_filter.
  by apply Hne.
Qed.

Lemma in_sync_expand (d : option Z) (this : Expandable) :
  class_name (expandedClass this) -> in_sync (expand d this).
Proof. intros Hc. unfold in_sync. by rewrite marker_expand. Qed.

Lemma in_sync_collapse (d : option Z) (this : Expandable) :
  class_name (expandedClass this) -> in_sync (collapse d this).
Proof. intros Hc. unfold in_sync. by rewrite marker_collapse. Qed.

(** The state has flipped when the call returns, while the animation is
    only requested: it is the newest entry of the content's queue. *)
Lemma expand_requests_slideDown (d : option Z) (this : Expandable)
    (e : Element) :
  content (node this) = Some e ->
  exists e',
    content (node (expand d this)) = Some e'
    /\ fx e'
       = (SlideDown, Some (default (calculateExpandDuration (height e)) d))
         :: fx e.
Proof.
  intros He. unfold expand; simpl. rewrite He; simpl.
  eexists; split; [reflexivity |]. by destruct d.
Qed.

Lemma collapse_requests_slideUp (d : option Z) (this : Expandable)
    (e : Element) :
  content (node this) = Some e ->
  exists e',
    content (node (collapse d this)) = Some e'
    /\ fx e'
       = (SlideUp, Some (default (calculateCollapseDuration (height e)) d))
         :: fx e.
Proof.
  intros He. unfold collapse; simpl. rewrite He; simpl.
  eexists; split; [reflexivity |]. by destruct d.
Qed.

(** ** Creation *)

Lemma create_unfold (options : Options) (n : Node) :
  exists this,
    create options n
    = (if isExpanded this then expand (Some 0) this
       else collapse (Some 0) this)
    /\ isInAccordion this = accordionData n
    /\ expandedClass this
       = default "expandable__expanded" (opt_expandedClass options)
    /\ throttleDuration this = default 450 (opt_throttleDuration options)
    /\ isExpanded this = hasClass (expandedClass this) (el n)
    /\ el (node this) = el n
    /\ target (node this)
       = match attr_get "id" (content n) with
         | Some id => attr "aria-controls" id (target n)
         | None => target n
         end
    /\ content (node this) = content n
    /\ parentNode (node this) = parentNode n.
Proof.
  unfold create, init, initUI. cbn [node el isExpanded expandedClass].
  match goal with |- context [if _ then expand _ ?w else _] => exists w end.
  simpl; auto 12.
Qed.

(** After creation flag and marker agree, whatever the marker string:
    the flag is read off with [hasClass], and the first rendering does
    not change what [hasClass] says. *)
Lemma in_sync_create (options : Options) (n : Node) :
  in_sync (create options n).
Proof.
  destruct (create_unfold options n)
    as (this & -> & _ & _ & _ & Hex & Hel & _).
  unfold in_sync, marker. destruct (isExpanded this) eqn:Hopen; simpl;
    rewrite Hel; symmetry in Hex.
  - by rewrite addClass_present.
  - by rewrite hasClass_removeClass.
Qed.
(** ** Toggle on a page *)

Lemma collapse_each_lookup (js : list nat) (page : Page) (j : nat) :
  NoDup js ->
  collapse_each js page !! j
  = (if bool_decide (j ∈ js) then collapse None else id) <$> page !! j.
Proof.
  unfold collapse_each. revert page.
  induction js as [| a js IH]; intros page Hnd; simpl.
  - by destruct (page !! j).
  - apply NoDup_cons in Hnd as [Ha Hnd]. rewrite IH by assumption.
    destruct (decide (j = a)) as [-> | Hne].
    + rewrite list_lookup_alter_eq.
      rewrite (bool_decide_eq_false_2 _ Ha).
      rewrite (bool_decide_eq_true_2 (a ∈ a :: js)) by apply list_elem_of_here.
      by destruct (page !! a).
    + rewrite list_lookup_alter_ne by congruence.
      rewrite (bool_decide_ext (j ∈ a :: js) (j ∈ js)); [reflexivity |].
      rewrite elem_of_cons.
      split; [intros [? | ?]; [contradiction | assumption] | auto].
Qed.

Lemma siblings_NoDup (i : nat) (this : Expandable) (page : Page) :
  NoDup (siblings i this page).
Proof.
  apply NoDup_ListNoDup, List.NoDup_filter, List.seq_NoDup.
Qed.

Lemma elem_of_siblings (i : nat) (this : Expandable) (page : Page) (j : nat) :
  j ∈ siblings i this page <-> sibling_at i this page j = true.
Proof.
  unfold siblings. rewrite list_elem_of_In, List.filter_In, List.in_seq.
  split; [tauto |]. intros Hs; split; [| assumption].
  unfold sibling_at in Hs. destruct (page !! j) eqn:Hj; [| discriminate].
  apply lookup_lt_Some in Hj. lia.
Qed.

Lemma sibling_at_self (i : nat) (this : Expandable) (page : Page) :
  sibling_at i this page i = false.
Proof.
  unfold sibling_at, is_sibling. destruct (page !! i); [| reflexivity].
  by rewrite bool_decide_eq_false_2 by tauto.
Qed.

(** What [toggle] leaves at each position of the page. *)
Lemma toggle_lookup (i : nat) (ev : Event) (page : Page) (this : Expandable)
    (j : nat) :
  page !! i = Some this ->
  toggle i ev page !! j
  = if isExpanded this
    then (if bool_decide (j = i) then Some (collapse None this) else page !! j)
    else if bool_decide (j = i) then Some (expand None this)
    else if isInAccordion this && sibling_at i this page j
    then collapse None <$> page !! j
    else page !! j.
Proof.
  intros Hi. unfold toggle. rewrite Hi.
  destruct (isExpanded this).
  - case_bool_decide as Hj.
    + subst j. by rewrite list_lookup_alter_eq, Hi.
    + by rewrite list_lookup_alter_ne by congruence.
  - case_bool_decide as Hj.
    + subst j. rewrite list_lookup_alter_eq.
      destruct (isInAccordion this); [| by rewrite Hi].
      rewrite collapse_each_lookup by apply siblings_NoDup.
      rewrite bool_decide_eq_false_2, Hi; [reflexivity |].
      rewrite elem_of_siblings, sibling_at_self. discriminate.
    + rewrite list_lookup_alter_ne by congruence.
      destruct (isInAccordion this); simpl; [| reflexivity].
      rewrite collapse_each_lookup by apply siblings_NoDup.
      destruct (sibling_at i this page j) eqn:Hs.
      * by rewrite bool_decide_eq_true_2 by by apply elem_of_siblings.
      * rewrite bool_decide_eq_false_2; [by destruct (page !! j) |].
        rewrite elem_of_siblings, Hs. discriminate.
Qed.

Lemma toggle_length (i : nat) (ev : Event) (page : Page) :
  length (toggle i ev page) = length page.
Proof.
  unfold toggle, collapse_each.
  destruct (page !! i) as [this |]; [| reflexivity].
  destruct (isExpanded this); rewrite length_alter; [reflexivity |].
  destruct (isInAccordion this); [| reflexivity].
  generalize (siblings i this page) as js. intros js. revert page.
  induction js as [| a js IH]; intros page; simpl; [reflexivity |].
  by rewrite IH, length_alter.
Qed.

(** Where a widget of the page after a toggle comes from. *)
Lemma toggle_lookup_origin (i : nat) (ev : Event) (page : Page) (j : nat)
    (w : Expandable) :
  toggle i ev page !! j = Some w ->
  exists s,
    page !! j = Some s
    /\ (w = s \/ w = expand None s \/ w = collapse None s).
Proof.
  destruct (page !! i) as [this |] eqn:Hi.
  - rewrite (toggle_lookup i ev page this j Hi).
    destruct (isExpanded this); case_bool_decide as Hj; subst;
      try (intros [= <-]; eauto 6); try (intros Hw; eauto 6).
    destruct (isInAccordion this && sibling_at i this page j);
      destruct (page !! j) as [s |]; simpl in Hw; try discriminate;
      injection Hw as <-; eauto 6.
  - unfold toggle. rewrite Hi. eauto.
Qed.

Lemma markers_named_toggle (i : nat) (ev : Event) (page : Page) :
  markers_named page -> markers_named (toggle i ev page).
Proof.
  unfold markers_named. rewrite !Forall_lookup. intros Hpage j w Hj.
  destruct (toggle_lookup_origin i ev page j w Hj)
    as (s & Hs & [-> | [-> | ->]]); apply (Hpage j s Hs).
Qed.

Lemma in_sync_toggle (i : nat) (ev : Event) (page : Page) :
  markers_named page ->
  Forall in_sync page -> Forall in_sync (toggle i ev page).
Proof.
  unfold markers_named. rewrite !Forall_lookup. intros Hnamed Hpage j w Hj.
  destruct (toggle_lookup_origin i ev page j w Hj)
    as (s & Hs & [-> | [-> | ->]]).
  - by apply (Hpage j).
  - apply in_sync_expand. by apply (Hnamed j).
  - apply in_sync_collapse. by apply (Hnamed j).
Qed.

(** ** State and marker class *)

(** C4, amended: for a widget whose [expandedClass] is one class name,
    every [expand] call leaves [isExpanded] true and the marker class on
    the container, every [collapse] call leaves [isExpanded] false and
    the class off it, when the call returns.  Both keep [expandedClass]
    and change the container by [addClass] and by [removeClass] of it.
    Flag and marker agree after creation, and on a page of widgets with
    such markers they agree after every toggle. *)
Theorem isExpanded_mirrors_marker :
  (forall this d,
      class_name (expandedClass this) ->
      (isExpanded (expand d this) = true
       /\ hasClass (expandedClass this) (el (node (expand d this))) = true)
      /\ (isExpanded (collapse d this) = false
          /\ hasClass (expandedClass this) (el (node (collapse d this)))
             = false))
  /\ (forall this d,
      (expandedClass (expand d this) = expandedClass this
       /\ el (node (expand d this))
          = addClass (expandedClass this) (el (node this)))
      /\ (expandedClass (collapse d this) = expandedClass this
          /\ el (node (collapse d this))
             = removeClass (expandedClass this) (el (node this))))
  /\ (forall options n, in_sync (create options n))
  /\ (forall i ev (page : Page),
      markers_named page ->
      Forall in_sync page -> Forall in_sync (toggle i ev page)).
Proof.
  split; [| split; [| split]].
  - intros this d Hc. split; (split; [reflexivity |]).
    + by apply (marker_expand d this).
    + by apply (marker_collapse d this).
  - intros this d. repeat split.
  - apply in_sync_create.
  - apply in_sync_toggle.
Qed.

Lemma isExpanded_mirrors_marker_witness :
  let this := sample_widget false in
  class_name (expandedClass this)
  /\ hasClass (expandedClass this) (el (node (expand None this))) = true
  /\ hasClass (expandedClass this) (el (node (collapse None this))) = false
  /\ markers_named sample_page
  /\ Forall in_sync sample_page
  /\ Forall in_sync (toggle 0 Click sample_page).
Proof.
  intros this.
  assert (class_name (expandedClass this)) as Hc by reflexivity.
  assert (markers_named sample_page) as Hn by (repeat constructor).
  assert (Forall in_sync sample_page) as Hs
    by (repeat constructor; vm_compute; reflexivity).
  destruct isExpanded_mirrors_marker as (Hflip & _ & _ & Htoggle).
  destruct (Hflip this None Hc) as [[_ He] [_ Hcl]].
  split; [exact Hc |]. split; [exact He |]. split; [exact Hcl |].
  split; [exact Hn |]. split; [exact Hs |].
  exact (Htoggle 0%nat Click _ Hn Hs).
Defined.

(** C4 as stated fails: on a widget created with the empty string as
    [expandedClass], [expand] sets the flag and [addClass] adds nothing,
    so that the flag is true and the marker is not on the container. *)
Lemma marker_mirrored_fails :
  (expandedClass unmarked_widget = ""
   /\ isExpanded (expand None unmarked_widget) = true
   /\ marker (expand None unmarked_widget) = false
   /\ className (el (node (expand None unmarked_widget))) = ["expandable"])
  /\ ~ marker_mirrored.
Proof.
  split; [repeat split |].
  intros H. destruct (H unmarked_widget None) as [He _]. discriminate.
Qed.

(** ** Idempotence and round trip *)

Lemma shown_true (this : Expandable) :
  shown "true" this
  = mkObservation true true (const "true" <$> target (node this))
      (const "true" <$> content (node this)).
Proof. reflexivity. Qed.

Lemma shown_false (this : Expandable) :
  shown "false" this
  = mkObservation false false (const "false" <$> target (node this))
      (const "false" <$> content (node this)).
Proof. reflexivity. Qed.

Lemma observe_expanded (d : option Z) (this : Expandable) :
  marker (expand d this) = true -> observe (expand d this) = shown "true" this.
Proof.
  intros Hm. destruct (aria_expand d this) as [Hp He].
  unfold observe. by rewrite Hm, Hp, He, shown_true.
Qed.

Lemma observe_collapsed (d : option Z) (this : Expandable) :
  marker (collapse d this) = false ->
  observe (collapse d this) = shown "false" this.
Proof.
  intros Hm. destruct (aria_collapse d this) as [Hp He].
  unfold observe. by rewrite Hm, Hp, He, shown_false.
Qed.

(** C10: [expand] on a widget that is expanded leaves [isExpanded], the
    marker class, [aria-pressed] and [aria-expanded] as they are, and so
    does [collapse] on a widget that is collapsed; the state after an
    [expand] is such an expanded state, the state after a [collapse] such
    a collapsed one. *)
Theorem expand_collapse_idempotent (this : Expandable) (d d' : option Z) :
  (observe this = shown "true" this -> observe (expand d this) = observe this)
  /\ (observe this = shown "false" this ->
      observe (collapse d this) = observe this)
  /\ observe (expand d' (expand d this)) = observe (expand d this)
  /\ observe (collapse d' (collapse d this)) = observe (collapse d this).
Proof.
  split; [| split; [| split]].
  - intros H. rewrite H. apply observe_expanded.
    pose proof (f_equal obs_marker H) as Hm. simpl in Hm.
    unfold marker in *; simpl. by rewrite addClass_present.
  - intros H. rewrite H. apply observe_collapsed.
    pose proof (f_equal obs_marker H) as Hm. simpl in Hm.
    unfold marker in *; simpl. by rewrite hasClass_removeClass.
  - destruct (aria_expand d this) as [Hp He].
    destruct (aria_expand d' (expand d this)) as [Hp' He'].
    pose proof (f_equal obs_pressed (shown_expand "true" d this)) as Ht.
    pose proof (f_equal obs_expanded (shown_expand "true" d this)) as Hc.
    unfold shown in Ht, Hc. cbn [obs_pressed obs_expanded] in Ht, Hc.
    unfold observe.
    rewrite Hp', He', Hp, He, Ht, Hc. f_equal.
    unfold marker; simpl. by rewrite addClass_idem.
  - destruct (aria_collapse d this) as [Hp He].
    destruct (aria_collapse d' (collapse d this)) as [Hp' He'].
    pose proof (f_equal obs_pressed (shown_collapse "false" d this)) as Ht.
    pose proof (f_equal obs_expanded (shown_collapse "false" d this)) as Hc.
    unfold shown in Ht, Hc. cbn [obs_pressed obs_expanded] in Ht, Hc.
    unfold observe.
    rewrite Hp', He', Hp, He, Ht, Hc. f_equal.
    unfold marker; simpl. by rewrite removeClass_idem.
Qed.

(** C7: on a collapsed widget, [expand] and then [collapse] give back
    [isExpanded = false] and the ARIA values from before, which are
    ["false"] on the trigger and on the content; two toggles in a row on
    a page do that to the toggled widget. *)
Theorem expand_then_collapse_restores
    (page : Page) (i : nat) (this : Expandable) (ev1 ev2 : Event)
    (d1 d2 : option Z) :
  page !! i = Some this ->
  isExpanded this = false ->
  aria_pressed this = Some "false" ->
  aria_expanded this = Some "false" ->
  let back := collapse d2 (expand d1 this) in
  isExpanded (expand d1 this) = true
  /\ isExpanded back = isExpanded this
  /\ aria_pressed back = aria_pressed this
  /\ aria_expanded back = aria_expanded this
  /\ aria_pressed back = Some "false"
  /\ aria_expanded back = Some "false"
  /\ toggle i ev1 page !! i = Some (expand None this)
  /\ toggle i ev2 (toggle i ev1 page) !! i
     = Some (collapse None (expand None this)).
Proof.
  intros Hi Hex Hp He back.
  destruct (aria_collapse d2 (expand d1 this)) as [Hpb Heb].
  fold back in Hpb, Heb.
  assert (aria_pressed back = Some "false") as Hpb'.
  { rewrite Hpb. unfold aria_pressed in Hp. simpl.
    destruct (target (node this)); [reflexivity | discriminate]. }
  assert (aria_expanded back = Some "false") as Heb'.
  { rewrite Heb. unfold aria_expanded in He. simpl.
    destruct (content (node this)); [reflexivity | discriminate]. }
  assert (toggle i ev1 page !! i = Some (expand None this)) as Ht.
  { rewrite (toggle_lookup i ev1 page this i Hi), Hex.
    by rewrite bool_decide_eq_true_2. }
  split; [reflexivity |].
  split; [by rewrite Hex |].
  do 4 (split; [congruence |]).
  split; [assumption |].
  rewrite (toggle_lookup i ev2 _ _ i Ht); simpl.
  by rewrite bool_decide_eq_true_2.
Qed.

Lemma expand_collapse_idempotent_witness :
  (observe (sample_widget true) = shown "true" (sample_widget true)
   /\ observe (expand None (sample_widget true))
      = observe (sample_widget true))
  /\ (observe (sample_widget false) = shown "false" (sample_widget false)
      /\ observe (collapse None (sample_widget false))
         = observe (sample_widget false)).
Proof.
  split.
  - assert (observe (sample_widget true) = shown "true" (sample_widget true))
      as H by (vm_compute; reflexivity).
    split; [exact H |].
    exact (proj1 (expand_collapse_idempotent (sample_widget true) None None) H).
  - assert (observe (sample_widget false) = shown "false" (sample_widget false))
      as H by (vm_compute; reflexivity).
    split; [exact H |].
    exact (proj1 (proj2 (expand_collapse_idempotent (sample_widget false)
                           None None)) H).
Defined.

Lemma expand_then_collapse_restores_witness :
  isExpanded (collapse None (expand None (sample_widget false))) = false
  /\ aria_pressed (collapse None (expand None (sample_widget false)))
     = Some "false"
  /\ toggle 0 Click (toggle 0 Click sample_page) !! 0%nat
     = Some (collapse None (expand None (sample_widget false))).
Proof.
  pose proof (expand_then_collapse_restores sample_page 0 (sample_widget false)
                Click Click None None eq_refl eq_refl eq_refl eq_refl) as H.
  simpl in H.
  destruct H as (_ & H1 & _ & _ & H2 & _ & _ & H3).
  split; [exact H1 | split; [exact H2 | exact H3]].
Defined.

(** ** Accordion *)

(** An expanded member of group [p] after a toggle of the accordion
    member [i] is the toggled widget itself, which then was collapsed and
    lies below [p], or an untouched widget; and when [i] was collapsed and
    lies below [p] there is no such untouched widget. *)
Lemma toggle_expanded_member (page : Page) (i : nat) (this : Expandable)
    (ev : Event) (p j : nat) (w : Expandable) :
  page !! i = Some this -> isInAccordion this = true ->
  toggle i ev page !! j = Some w ->
  isExpanded w = true -> member p w = true ->
  (j = i /\ isExpanded this = false /\ parentNode (node this) = Some p)
  \/ (j <> i /\ page !! j = Some w
      /\ (isExpanded this = false -> parentNode (node this) <> Some p)).
Proof.
  intros Hi Hacc Hj Hw Hm.
  rewrite (toggle_lookup i ev page this j Hi), Hacc in Hj.
  apply andb_true_iff in Hm as [Hp%bool_decide_eq_true Hc].
  destruct (isExpanded this) eqn:Hex; case_bool_decide as Hji.
  - injection Hj as <-. discriminate.
  - right. repeat split; [assumption.. | discriminate].
  - injection Hj as <-. left. repeat split; assumption.
  - simpl in Hj. unfold sibling_at in Hj.
    destruct (page !! j) as [s |] eqn:Hs; [| discriminate].
    destruct (is_sibling i this j s) eqn:Hsib; simpl in Hj; injection Hj as <-;
      [discriminate |].
    right. repeat split; try assumption. intros _ Hthis.
    unfold is_sibling in Hsib. rewrite Hthis, Hp, Hc in Hsib.
    rewrite !bool_decide_eq_true_2 in Hsib by congruence. discriminate.
Qed.

(** C5, amended: a toggle on a collapsed accordion member expands it and
    collapses every [.expandable] sibling, which leaves at most one
    member of its group expanded; a toggle on an expanded member
    collapses only that member; widgets that are not such siblings stay
    as they are; and a group with at most one expanded member before a
    toggle of an accordion member has at most one after it. *)
Theorem toggle_accordion (page : Page) (i : nat) (this : Expandable)
    (ev : Event) :
  page !! i = Some this -> isInAccordion this = true ->
  (isExpanded this = false ->
     toggle i ev page !! i = Some (expand None this)
     /\ (forall j s, page !! j = Some s -> is_sibling i this j s = true ->
           toggle i ev page !! j = Some (collapse None s))
     /\ (forall p, parentNode (node this) = Some p ->
           at_most_one_expanded p (toggle i ev page)))
  /\ (isExpanded this = true ->
        toggle i ev page !! i = Some (collapse None this)
        /\ forall j, j <> i -> toggle i ev page !! j = page !! j)
  /\ (forall j s, j <> i -> page !! j = Some s ->
        is_sibling i this j s = false -> toggle i ev page !! j = Some s)
  /\ (forall p, at_most_one_expanded p page ->
        at_most_one_expanded p (toggle i ev page)).
Proof.
  intros Hi Hacc.
  pose proof (fun j => toggle_lookup i ev page this j Hi) as Hlook.
  split; [| split; [| split]].
  - intros Hex. split; [| split].
    + by rewrite Hlook, Hex, bool_decide_eq_true_2.
    + intros j s Hs Hsib. rewrite Hlook, Hex, Hacc.
      unfold sibling_at. rewrite Hs, Hsib; simpl.
      rewrite bool_decide_eq_false_2; [reflexivity |].
      intros ->. unfold is_sibling in Hsib.
      by rewrite bool_decide_eq_false_2 in Hsib by tauto.
    + intros p Hp j k wj wk Hj Hk Hmj Hmk Hej Hek.
      destruct (toggle_expanded_member page i this ev p j wj Hi Hacc Hj Hej Hmj)
        as [[-> _] | (_ & _ & Hno)]; [| by destruct (Hno Hex)].
      destruct (toggle_expanded_member page i this ev p k wk Hi Hacc Hk Hek Hmk)
        as [[-> _] | (_ & _ & Hno)]; [reflexivity | by destruct (Hno Hex)].
  - intros Hex. split.
    + by rewrite Hlook, Hex, bool_decide_eq_true_2.
    + intros j Hj. by rewrite Hlook, Hex, bool_decide_eq_false_2.
  - intros j s Hj Hs Hsib. rewrite Hlook.
    rewrite bool_decide_eq_false_2 by assumption.
    unfold sibling_at. rewrite Hs, Hsib, andb_false_r.
    by destruct (isExpanded this).
  - intros p Hone j k wj wk Hj Hk Hmj Hmk Hej Hek.
    destruct (toggle_expanded_member page i this ev p j wj Hi Hacc Hj Hej Hmj)
      as [(-> & Hex & Hp) | (_ & Hj' & Hno)];
    destruct (toggle_expanded_member page i this ev p k wk Hi Hacc Hk Hek Hmk)
      as [(-> & Hex' & Hp') | (_ & Hk' & Hno')].
    + reflexivity.
    + by destruct (Hno' Hex).
    + by destruct (Hno Hex').
    + by apply (Hone j k wj wk).
Qed.

Lemma toggle_accordion_witness :
  let a := create no_options (sample_node "a" false true) in
  let b := create no_options (sample_node "b" true true) in
  (sample_page !! 0%nat = Some a /\ sample_page !! 1%nat = Some b)
  /\ (isInAccordion a = true /\ isExpanded a = false /\ isExpanded b = true)
  /\ toggle 0 Click sample_page !! 0%nat = Some (expand None a)
  /\ toggle 0 Click sample_page !! 1%nat = Some (collapse None b)
  /\ at_most_one_expanded 0 (toggle 0 Click sample_page)
  /\ (at_most_one_expanded 0 sample_page
      /\ at_most_one_expanded 0 (toggle 1 Click sample_page)).
Proof.
  intros a b.
  split; [split; reflexivity |]. split; [repeat split; reflexivity |].
  destruct (toggle_accordion sample_page 0 a Click eq_refl eq_refl)
    as (Hexpand & _ & _ & _).
  destruct (Hexpand eq_refl) as (Ha & Hsiblings & Hone).
  split; [exact Ha |].
  split; [exact (Hsiblings 1%nat b eq_refl eq_refl) |].
  split; [exact (Hone 0%nat eq_refl) |].
  assert (at_most_one_expanded 0 sample_page) as Hbefore.
  { intros j k wj wk Hj Hk _ _ Hej Hek.
    destruct j as [| [| [| j]]], k as [| [| [| k]]];
      try reflexivity; vm_compute in Hj, Hk; try discriminate;
      injection Hj as <-; injection Hk as <-; discriminate. }
  split; [exact Hbefore |].
  exact (proj2 (proj2 (proj2
           (toggle_accordion sample_page 1 b Click eq_refl eq_refl)))
           0%nat Hbefore).
Defined.

(** C5 as stated fails: with three members open in the markup, a toggle
    on the first collapses it and leaves the other two expanded. *)
Lemma accordion_exclusive_fails :
  isExpanded <$> all_open_page = [true; true; true]
  /\ isInAccordion <$> all_open_page = [true; true; true]
  /\ isExpanded <$> toggle 0 Click all_open_page = [false; true; true]
  /\ ~ accordion_exclusive.
Proof.
  do 3 (split; [reflexivity |]).
  intros H.
  specialize (H all_open_page 0%nat _ Click 0%nat eq_refl eq_refl
                1%nat 2%nat _ _ eq_refl eq_refl eq_refl eq_refl eq_refl eq_refl).
  discriminate.
Qed.

(** ** Options *)

Lemma create_properties (options : Options) (n : Node) :
  isInAccordion (create options n) = accordionData n
  /\ expandedClass (create options n)
     = default "expandable__expanded" (opt_expandedClass options)
  /\ throttleDuration (create options n)
     = default 450 (opt_throttleDuration options).
Proof.
  destruct (create_unfold options n) as (this & -> & <- & <- & <- & _).
  by destruct (isExpanded this).
Qed.

(** C8, amended: a value the caller gives for [expandedClass] or for
    [throttleDuration] is the value of the instance after creation, and
    the default is where the caller gives none; the merged properties
    take the caller's [isInAccordion] too, but [init] replaces it, so the
    instance has the accordion flag of the markup whatever the caller
    gave. *)
Theorem create_precedence (options : Options) (n : Node) :
  (forall v, opt_expandedClass options = Some v ->
             expandedClass (create options n) = v)
  /\ (forall v, opt_throttleDuration options = Some v ->
                throttleDuration (create options n) = v)
  /\ (opt_expandedClass options = None ->
      expandedClass (create options n) = "expandable__expanded")
  /\ (opt_throttleDuration options = None ->
      throttleDuration (create options n) = 450)
  /\ (forall v, opt_isInAccordion options = Some v ->
                prop_isInAccordion (_extend defaultProperties options) = v)
  /\ isInAccordion (create options n) = accordionData n.
Proof.
  destruct (create_properties options n) as (Hacc & -> & ->).
  split; [by intros v -> |].
  split; [by intros v -> |].
  split; [by intros -> |].
  split; [by intros -> |].
  split; [| assumption].
  intros v Hv; simpl. by rewrite Hv.
Qed.

Lemma create_precedence_witness :
  let options := mkOptions (Some true) (Some "open") (Some 200) in
  let n := sample_node "a" false false in
  expandedClass (create options n) = "open"
  /\ throttleDuration (create options n) = 200
  /\ prop_isInAccordion (_extend defaultProperties options) = true
  /\ isInAccordion (create options n) = false.
Proof.
  intros options n.
  destruct (create_precedence options n) as (H1 & H2 & _ & _ & H3 & H4).
  split; [exact (H1 _ eq_refl) |].
  split; [exact (H2 _ eq_refl) |].
  split; [exact (H3 _ eq_refl) | exact H4].
Defined.

(** C8 as stated fails: a caller who passes [isInAccordion: true] for a
    container outside any accordion group gets an instance whose
    [isInAccordion] is false. *)
Lemma caller_precedence_fails :
  isInAccordion
    (create (mkOptions (Some true) None None) (sample_node "a" false false))
  = false
  /\ ~ caller_precedence.
Proof.
  split; [reflexivity |].
  intros H.
  destruct (H (mkOptions (Some true) None None) (sample_node "a" false false))
    as [Hacc _].
  specialize (Hacc true eq_refl). discriminate.
Qed.

(** ** Throttle *)

Lemma timeout_delay_in_range (duration : Z) :
  0 <= duration < 2 ^ 31 -> timeout_delay duration = duration.
Proof.
  intros Hd. unfold timeout_delay, to_int32.
  rewrite Z.mod_small by lia. lia.
Qed.

Section ThrottleProperties.
Context {C E : Type}.
Variable duration : Z.
Variable callback : E -> C -> Completion C.

Lemma run_timers_pending (now deadline : Z) (flag : bool) (ctx : C) :
  now < deadline ->
  run_timers now (mkThrottle flag [deadline] ctx)
  = mkThrottle flag [deadline] ctx.
Proof.
  intros Hnow. unfold run_timers; simpl.
  rewrite filter_cons, filter_nil.
  destruct (decide (deadline <= now)); [lia | reflexivity].
Qed.

Lemma run_timers_due (now deadline : Z) (flag : bool) (ctx : C) :
  deadline <= now ->
  run_timers now (mkThrottle flag [deadline] ctx) = _throttle ctx.
Proof.
  intros Hnow. unfold run_timers; simpl.
  rewrite !filter_cons, !filter_nil.
  destruct (decide (deadline <= now)); [| lia]. simpl.
  by destruct (decide (¬ deadline <= now)).
Qed.

(** While the timeout has not run, nothing changes: an activation is
    ignored whenever it comes, and a timeout task before the deadline
    finds nothing to run. *)
Lemma perform_all_inside (ctx : C) (t0 : Z) (burst : list (Task E)) :
  Forall (fun task => match task with
                      | Activation _ _ => True
                      | Timeout now => now < t0 + timeout_delay duration
                      end) burst ->
  perform_all duration callback burst (throttling_since duration t0 ctx)
  = throttling_since duration t0 ctx.
Proof.
  unfold perform_all.
  induction 1 as [| [now e | now] burst Hnow _ IH]; simpl;
    [reflexivity | exact IH |].
  unfold throttling_since at 1. by rewrite run_timers_pending.
Qed.

(** A callback that throws leaves the handler dead: the flag is set, no
    timeout is pending, and no task changes that. *)
Lemma throws_stuck (ctx ctx' : C) (now : Z) (e : E) (tasks : list (Task E)) :
  callback e ctx = Throws ctx' ->
  perform_all duration callback tasks
    (_delay duration callback now e (_throttle ctx))
  = mkThrottle true [] ctx'.
Proof.
  intros Hthrow. unfold _delay; simpl. rewrite Hthrow.
  unfold perform_all.
  induction tasks as [| [t e' | t] tasks IH]; simpl; auto.
Qed.

(** The state of a closure that was fresh once has at most one timeout
    pending, and none while the flag is not set. *)
Lemma perform_all_timers (tasks : list (Task E)) (s : Throttle C) :
  (length (timers s) <= 1)%nat ->
  (isThrottling s = false -> timers s = []) ->
  let s' := perform_all duration callback tasks s in
  (length (timers s') <= 1)%nat /\ (isThrottling s' = false -> timers s' = []).
Proof.
  unfold perform_all. revert s.
  induction tasks as [| task tasks IH]; intros s Hlen Hidle; simpl;
    [by split |].
  destruct task as [now e | now]; simpl; apply IH.
  - unfold _delay. destruct (isThrottling s) eqn:Hf; [assumption |].
    rewrite (Hidle eq_refl). destruct (callback e (context s)); simpl; lia.
  - unfold _delay. destruct (isThrottling s) eqn:Hf; [congruence |].
    destruct (callback e (context s)); discriminate.
  - unfold run_timers.
    destruct (filter _ (timers s)) eqn:Hdue; [assumption |]. simpl.
    etransitivity; [apply length_filter | assumption].
  - unfold run_timers.
    destruct (filter (fun t => t <= now) (timers s)) eqn:Hdue;
      [assumption |]. simpl. intros _.
    destruct (timers s) as [| t [| t' rest]];
      [reflexivity | | simpl in Hlen; lia].
    rewrite filter_cons, filter_nil in Hdue.
    rewrite filter_cons, filter_nil.
    destruct (decide (t <= now)); [| discriminate].
    by destruct (decide (¬ t <= now)).
Qed.

(** Whatever the callback keeps, the throttled handler keeps. *)
Lemma perform_all_preserve (P : C -> Prop) (tasks : list (Task E))
    (s : Throttle C) :
  (forall e ctx,
      P ctx ->
      match callback e ctx with Returns ctx' | Throws ctx' => P ctx' end) ->
  P (context s) -> P (context (perform_all duration callback tasks s)).
Proof.
  intros Hcb. unfold perform_all. revert s.
  induction tasks as [| [now e | now] tasks IH]; intros s Hs; simpl;
    [assumption | |]; apply IH.
  - unfold _delay. destruct (isThrottling s); [assumption |].
    specialize (Hcb e (context s) Hs).
    by destruct (callback e (context s)).
  - unfold run_timers. by destruct (filter _ (timers s)).
Qed.
End ThrottleProperties.

(** C6, amended: for a [duration] from 0 to 2^31 - 1, which
    [setTimeout] takes as it is, and a callback that returns.  The first
    activation runs the callback at once.  No task that comes before
    [duration] has passed since then changes anything: an activation is
    ignored, and the timeout cannot run yet; so the first activation and
    a burst inside its window run the callback exactly once.  In fact
    every activation is ignored until the timeout has run, however late
    it comes.  Once the timeout has run, which is not before the window
    is over, the next activation is processed like the first. *)
Theorem throttle_leading_edge {C E : Type} (duration : Z) (f : E -> C -> C)
    (ctx : C) (t0 : Z) (e0 : E) (burst : list (Task E))
    (calls : list (Z * E)) (tf t1 : Z) (e1 : E) :
  0 <= duration < 2 ^ 31 ->
  Forall (fun task => task_time task < t0 + duration) burst ->
  t0 + duration <= tf ->
  let s1 := _delay duration (returning f) t0 e0 (_throttle ctx) in
  context s1 = f e0 ctx
  /\ perform_all duration (returning f) burst s1 = s1
  /\ perform_all duration (returning f) (Activation t0 e0 :: burst)
       (_throttle ctx)
     = throttling_since duration t0 (f e0 ctx)
  /\ perform_all duration (returning f)
       ((fun a => Activation a.1 a.2) <$> calls) s1 = s1
  /\ perform_all duration (returning f) [Timeout tf; Activation t1 e1] s1
     = throttling_since duration t1 (f e1 (f e0 ctx)).
Proof.
  intros Hd Hburst Htf s1.
  pose proof (timeout_delay_in_range duration Hd) as Hdelay.
  assert (s1 = throttling_since duration t0 (f e0 ctx)) as -> by reflexivity.
  assert (perform_all duration (returning f) burst
            (throttling_since duration t0 (f e0 ctx))
          = throttling_since duration t0 (f e0 ctx)) as Hin.
  { apply perform_all_inside. eapply Forall_impl; [exact Hburst |].
    intros [now e | now]; simpl; [auto | lia]. }
  split; [reflexivity |]. split; [exact Hin |]. split; [exact Hin |].
  split.
  - apply perform_all_inside. apply Forall_fmap, Forall_forall. by intros.
  - unfold perform_all, throttling_since; simpl.
    by rewrite run_timers_due by lia.
Qed.

Lemma throttle_leading_edge_witness :
  let burst := [Activation 50 Click; Timeout 100; Activation 449 Click] in
  let s1 := click 0 (sample_widget false) 0 (initEvents sample_page) in
  context s1 = toggle 0 Click sample_page
  /\ perform_all 450 (toggle_callback 0) burst s1 = s1
  /\ perform_all 450 (toggle_callback 0) [Activation 5000 Click] s1 = s1
  /\ perform_all 450 (toggle_callback 0)
       [Timeout 450; Activation 450 Click] s1
     = throttling_since 450 450 (toggle 0 Click (toggle 0 Click sample_page)).
Proof.
  intros burst s1.
  assert (Forall (fun task : Task Event => task_time task < 0 + 450) burst)
    as Hburst by (repeat constructor; simpl; lia).
  destruct (throttle_leading_edge 450 (toggle 0) sample_page 0 Click burst
              [(5000, Click)] 450 450 Click ltac:(lia) Hburst ltac:(lia))
    as (H1 & H2 & _ & H3 & H4).
  split; [exact H1 |]. split; [exact H2 |]. split; [exact H3 | exact H4].
Defined.

(** C6 as stated fails.  With a [duration] of 2^32, which [setTimeout]
    does not take as it is, the timeout runs within a few ms, and an
    activation 61 ms after the first runs the callback a second time,
    long before 2^32 ms have passed.  And when the timeout has not run,
    an activation after the window is ignored all the same. *)
Lemma throttle_window_fails :
  (64 < 3 + 2 ^ 32
   /\ context
        (perform_all (2 ^ 32)
           (returning (fun (_ : Event) (n : nat) => S n))
           [Activation 3 Click; Timeout 10; Activation 64 Click]
           (_throttle 0%nat))
      = 2%nat)
  /\ context
       (perform_all 0 (returning (fun (_ : Event) (n : nat) => S n))
          [Activation 0 Click; Activation 5 Click] (_throttle 0%nat))
     = 1%nat
  /\ ~ throttle_window.
Proof.
  split; [split; [lia | reflexivity] |].
  split; [reflexivity |].
  intros H. specialize (H (2 ^ 32) 0%nat 3 10 64 ltac:(lia) ltac:(lia)).
  vm_compute in H. discriminate.
Qed.

(** Ten activations in 100 ms under a 450 ms throttle run the callback
    once. *)
Example throttle_ten_in_100ms :
  context
    (perform_all 450 (returning (fun (_ : Event) (calls : nat) => S calls))
       ((fun t => Activation t Click)
          <$> [0; 10; 20; 30; 40; 50; 60; 70; 80; 90])
       (_throttle 0%nat))
  = 1%nat.
Proof. reflexivity. Qed.

(** The scenario of the specification: a container without the marker
    class and a content region 100 pixels high.  Creation collapses with
    duration 0; the first click expands over 450 ms; a second click
    within 450 ms is ignored; after the timeout has run at 450 ms, a
    click collapses over 350 ms. *)
Example scenario_100px :
  let this := create no_options (sample_node "a" false false) in
  let page := [this] in
  let queue (s : Throttle Page) :=
    (context s !! 0%nat) ≫= fun w => fx <$> content (node w) in
  let s1 := click 0 this 0 (initEvents page) in
  let s2 := click 0 this 200 s1 in
  let s3 := click 0 this 500 (run_timers 450 s2) in
  throttleDuration this = 450
  /\ queue (initEvents page) = Some [(SlideUp, Some 0)]
  /\ queue s1 = Some [(SlideDown, Some 450); (SlideUp, Some 0)]
  /\ isExpanded <$> context s1 = [true]
  /\ s2 = s1
  /\ queue s3 = Some [(SlideUp, Some 350); (SlideDown, Some 450);
                      (SlideUp, Some 0)]
  /\ isExpanded <$> context s3 = [false].
Proof. repeat split; reflexivity. Qed.
(** * Further properties of the controller *)

(** ** Durations *)

Lemma constrainValue_mono (min max v1 v2 : Z) :
  min <= max -> v1 <= v2 ->
  constrainValue min max v1 <= constrainValue min max v2.
Proof.
  intros Hle Hv.
  destruct (constrainValue_cases min max v1) as [[? ->] | [[? [? ->]] | [? ->]]],
    (constrainValue_cases min max v2) as [[? ->] | [[? [? ->]] | [? ->]]];
    lia.
Qed.

(** X1: with [min <= max], constraining is monotone in the value and
    constraining twice is constraining once; whatever the bounds, the
    result is the value or one of the two bounds. *)
Theorem constrainValue_monotone_idempotent (min max v1 v2 : Z) :
  (min <= max -> v1 <= v2 ->
   constrainValue min max v1 <= constrainValue min max v2)
  /\ (min <= max ->
      constrainValue min max (constrainValue min max v1)
      = constrainValue min max v1)
  /\ (constrainValue min max v1 = v1
      \/ constrainValue min max v1 = min
      \/ constrainValue min max v1 = max).
Proof.
  split; [apply constrainValue_mono |]. split.
  - intros Hle.
    pose proof (constrainValue_range min max v1 Hle) as Hr.
    destruct (constrainValue_cases min max (constrainValue min max v1))
      as [[? ?] | [[? [? ?]] | [? ?]]]; lia.
  - destruct (constrainValue_cases min max v1)
      as [[? ->] | [[? [? ->]] | [? ->]]]; auto.
Qed.

Lemma constrainValue_monotone_idempotent_witness :
  constrainValue 450 900 400 <= constrainValue 450 900 1000
  /\ constrainValue 450 900 (constrainValue 450 900 1000)
     = constrainValue 450 900 1000.
Proof.
  destruct (constrainValue_monotone_idempotent 450 900 1000 1000)
    as (_ & Hidem & _).
  destruct (constrainValue_monotone_idempotent 450 900 400 1000)
    as (Hmono & _ & _).
  split; [apply Hmono; lia | apply Hidem; lia].
Defined.

(** X2: taller content never gets a shorter animation, for expanding
    and for collapsing. *)
Theorem durations_monotone (h1 h2 : Z) :
  h1 <= h2 ->
  calculateExpandDuration h1 <= calculateExpandDuration h2
  /\ calculateCollapseDuration h1 <= calculateCollapseDuration h2.
Proof.
  intros Hh. unfold calculateExpandDuration, calculateCollapseDuration.
  split; apply constrainValue_mono; lia.
Qed.

Lemma durations_monotone_witness :
  120 <= 200
  /\ calculateExpandDuration 120 <= calculateExpandDuration 200
  /\ calculateCollapseDuration 120 <= calculateCollapseDuration 200.
Proof. split; [lia | apply (durations_monotone 120 200); lia]. Defined.

(** X3: the durations in terms of the height.  Expanding takes 450 ms up
    to a height of 112, four times the height up to 225, and 900 ms from
    there on; collapsing takes 350 ms up to a height of 174, twice the
    height up to 450, and 900 ms from there on.  A negative height gives
    the minimum. *)
Theorem durations_by_height (h : Z) :
  calculateExpandDuration h
  = (if h <=? 112 then 450 else if 225 <=? h then 900 else 4 * h)
  /\ calculateCollapseDuration h
     = (if h <=? 174 then 350 else if 450 <=? h then 900 else 2 * h).
Proof.
  unfold calculateExpandDuration, calculateCollapseDuration.
  split.
  - destruct (constrainValue_cases 450 900 (h * 4))
      as [[? ->] | [[? [? ->]] | [? ->]]],
      (Z.leb_spec h 112), (Z.leb_spec 225 h); lia.
  - destruct (constrainValue_cases 350 900 (h * 2))
      as [[? ->] | [[? [? ->]] | [? ->]]],
      (Z.leb_spec h 174), (Z.leb_spec 450 h); lia.
Qed.

(** X4: collapsing a content region never takes longer than expanding
    it, and at most 450 ms less. *)
Theorem collapse_not_slower (h : Z) :
  calculateCollapseDuration h <= calculateExpandDuration h
  <= calculateCollapseDuration h + 450.
Proof.
  unfold calculateExpandDuration, calculateCollapseDuration.
  destruct (constrainValue_cases 450 900 (h * 4))
    as [[? ->] | [[? [? ->]] | [? ->]]],
    (constrainValue_cases 350 900 (h * 2))
    as [[? ->] | [[? [? ->]] | [? ->]]]; lia.
Qed.

(** ** What expand and collapse touch *)



(** X6: [expand] and [collapse] put exactly one animation in front of
    the queue of the content: a slide down, a slide up.  A duration the
    caller passes, zero included, is taken as it is; without one the
    duration is computed from the height of the content. *)
Theorem slide_requests (this : Expandable) (d : option Z) (e : Element) :
  content (node this) = Some e ->
  fx <$> content (node (expand d this))
  = Some ((SlideDown, Some (default (calculateExpandDuration (height e)) d))
          :: fx e)
  /\ fx <$> content (node (collapse d this))
     = Some ((SlideUp, Some (default (calculateCollapseDuration (height e)) d))
             :: fx e).
Proof.
  intros He. unfold expand, collapse; simpl. rewrite He; simpl.
  by destruct d.
Qed.

Lemma slide_requests_witness :
  let this := sample_widget false in
  fx <$> content (node (expand None this))
  = Some [(SlideDown, Some 450); (SlideUp, Some 0)]
  /\ fx <$> content (node (collapse (Some 0) this))
     = Some [(SlideUp, Some 0); (SlideUp, Some 0)].
Proof.
  intros this. split.
  - exact (proj1 (slide_requests this None _ eq_refl)).
  - exact (proj2 (slide_requests this (Some 0) _ eq_refl)).
Defined.

(** X7: on a container without trigger and without content region,
    [expand] and [collapse] set the flag and the marker class and do
    nothing else: no attribute is written, no animation is requested,
    and the duration plays no part. *)
Theorem missing_descendants (this : Expandable) (d : option Z) :
  target (node this) = None -> content (node this) = None ->
  expand d this
  = mkExpandable (isInAccordion this) (expandedClass this)
      (throttleDuration this) true
      (mkNode (addClass (expandedClass this) (el (node this))) None None
         (parentNode (node this)) (accordionData (node this)))
  /\ collapse d this
     = mkExpandable (isInAccordion this) (expandedClass this)
         (throttleDuration this) false
         (mkNode (removeClass (expandedClass this) (el (node this))) None None
            (parentNode (node this)) (accordionData (node this))).
Proof.
  intros Ht Hc. unfold expand, collapse. rewrite Ht, Hc. by destruct d.
Qed.

Lemma missing_descendants_witness :
  let bare :=
    create no_options
      (mkNode (mkElement ["expandable"] ∅ 0 []) None None (Some 0%nat) false) in
  expand None bare = expand (Some 0) bare
  /\ observe (collapse None bare) = mkObservation false false None None.
Proof.
  intros bare.
  destruct (missing_descendants bare None eq_refl eq_refl) as [He Hc].
  destruct (missing_descendants bare (Some 0) eq_refl eq_refl) as [He0 _].
  split; [by rewrite He, He0 | by rewrite Hc].
Defined.

(** X8: for a marker that is one class name, [expand] and then
    [collapse] give the container its class list back, name for name,
    when the marker was not on it, and so does [collapse] alone, while
    [expand] on a container that has the marker leaves the class list
    alone.  Whatever the marker string, neither [expand] nor [collapse]
    ever repeats a class name. *)
Theorem class_list_round_trip (this : Expandable) (d1 d2 : option Z) :
  let classes (w : Expandable) := className (el (node w)) in
  (class_name (expandedClass this) -> marker this = false ->
   classes (collapse d2 (expand d1 this)) = classes this
   /\ classes (collapse d1 this) = classes this)
  /\ (class_name (expandedClass this) -> marker this = true ->
      classes (expand d1 this) = classes this)
  /\ (NoDup (classes this) ->
      NoDup (classes (expand d1 this)) /\ NoDup (classes (collapse d1 this))).
Proof.
  intros classes. subst classes. cbn beta. split; [| split].
  - intros Hc Hm. unfold marker in Hm.
    pose proof Hm as Hin. rewrite hasClass_class_name in Hin by assumption.
    apply bool_decide_eq_false in Hin. split.
    + change (className (removeClass (expandedClass this)
                           (addClass (expandedClass this) (el (node this))))
              = className (el (node this))).
      rewrite removeClass_class_name, addClass_class_name by assumption.
      rewrite bool_decide_eq_false_2 by assumption.
      rewrite filter_app, filter_cons_False, filter_nil, app_nil_r by tauto.
      by apply filter_ne_absent.
    + change (className (removeClass (expandedClass this) (el (node this)))
              = className (el (node this))).
      by rewrite removeClass_absent.
  - intros _ Hm. unfold marker in Hm.
    change (className (addClass (expandedClass this) (el (node this)))
            = className (el (node this))).
    by rewrite addClass_present.
  - intros Hnd. split.
    + by apply add_names_NoDup.
    + by apply NoDup_filter.
Qed.

Lemma class_list_round_trip_witness :
  let this := sample_widget false in
  className (el (node (collapse None (expand None this)))) = ["expandable"]
  /\ NoDup (className (el (node (expand None this)))).
Proof.
  intros this.
  destruct (class_list_round_trip this None None) as (Hrt & _ & Hnd).
  split.
  - exact (proj1 (Hrt eq_refl eq_refl)).
  - apply Hnd. repeat constructor. apply not_elem_of_nil.
Defined.

(** ** Creation *)

(** X9: creation takes the state from the markup and renders it without
    animation.  The instance is expanded exactly when [hasClass] finds
    the marker string on the container; the content gets one slide of
    duration 0 in the direction of the state, and trigger and content
    get the ARIA value of the state.  When the marker is one class name
    the container itself is left as it is. *)
Theorem create_renders_markup (options : Options) (n : Node) :
  let this := create options n in
  let open := hasClass (expandedClass this) (el n) in
  isExpanded this = open
  /\ (class_name (expandedClass this) -> el (node this) = el n)
  /\ parentNode (node this) = parentNode n
  /\ fx <$> content (node this)
     = (fun e => ((if open then SlideDown else SlideUp), Some 0) :: fx e)
       <$> content n
  /\ aria_pressed this
     = const (if open then "true" else "false") <$> target n
  /\ aria_expanded this
     = const (if open then "true" else "false") <$> content n.
Proof.
  intros this open.
  destruct (create_unfold options n)
    as (w & Hw & _ & _ & _ & Hex & Hel & Ht & Hcn & Hp).
  subst open this. rewrite Hw. destruct (isExpanded w) eqn:Hopen.
  - destruct (aria_expand (Some 0) w) as [Hpr Her].
    cbn [expandedClass expand]. rewrite <- Hex, Hpr, Her, Ht, Hcn.
    split; [reflexivity |].
    split; [intros _; unfold expand; simpl; rewrite Hel;
            by apply addClass_present |].
    split; [exact Hp |].
    split; [unfold expand; simpl; rewrite Hcn; by destruct (content n) |].
    split; [| reflexivity].
    by destruct (attr_get "id" (content n)), (target n).
  - destruct (aria_collapse (Some 0) w) as [Hpr Her].
    cbn [expandedClass collapse]. rewrite <- Hex, Hpr, Her, Ht, Hcn.
    split; [reflexivity |].
    split; [intros Hc; unfold collapse; simpl; rewrite Hel;
            by apply removeClass_absent |].
    split; [exact Hp |].
    split; [unfold collapse; simpl; rewrite Hcn; by destruct (content n) |].
    split; [| reflexivity].
    by destruct (attr_get "id" (content n)), (target n).
Qed.

Lemma create_renders_markup_witness :
  let n := sample_node "a" true false in
  isExpanded (create no_options n) = true
  /\ el (node (create no_options n)) = el n.
Proof.
  intros n.
  destruct (create_renders_markup no_options n) as (Hflag & Hel & _).
  split; [exact Hflag | exact (Hel eq_refl)].
Defined.

(** X10: creation links the trigger to the content: [aria-controls] of
    the trigger is the [id] of the content.  Where the content has no
    [id], or there is no content, the trigger keeps the [aria-controls]
    it had; where there is no trigger, nothing is linked. *)
Theorem create_links_trigger (options : Options) (n : Node) :
  attr_get "aria-controls" (target (node (create options n)))
  = match attr_get "id" (content n) with
    | Some id => const id <$> target n
    | None => attr_get "aria-controls" (target n)
    end.
Proof.
  unfold create, init, initUI; simpl.
  destruct (hasClass _ (el n)); simpl;
    rewrite attr_get_attr_ne by discriminate;
    destruct (attr_get "id" (content n)); try reflexivity;
    apply attr_get_attr.
Qed.

(** ** Toggle *)

Lemma toggle_self (i : nat) (ev : Event) (page : Page) (this : Expandable) :
  page !! i = Some this ->
  toggle i ev page !! i
  = Some (if isExpanded this then collapse None this else expand None this).
Proof.
  intros Hi. rewrite (toggle_lookup i ev page this i Hi).
  rewrite bool_decide_eq_true_2 by reflexivity.
  by destruct (isExpanded this).
Qed.

(** X11: a toggle keeps the number of widgets and inverts [isExpanded]
    of the toggled widget, whatever its state, so that two toggles give
    the flag back; and the toggle of a widget that is not in an
    accordion changes no other widget. *)
Theorem toggle_flips (page : Page) (i : nat) (this : Expandable)
    (ev ev' : Event) :
  page !! i = Some this ->
  length (toggle i ev page) = length page
  /\ isExpanded <$> toggle i ev page !! i = Some (negb (isExpanded this))
  /\ isExpanded <$> toggle i ev' (toggle i ev page) !! i
     = Some (isExpanded this)
  /\ (isInAccordion this = false ->
      forall j, j <> i -> toggle i ev page !! j = page !! j).
Proof.
  intros Hi. pose proof (toggle_self i ev page this Hi) as Hself.
  split; [apply toggle_length |].
  split; [rewrite Hself; by destruct (isExpanded this) |].
  split.
  - rewrite (toggle_self i ev' _ _ Hself). by destruct (isExpanded this).
  - intros Hacc j Hj. rewrite (toggle_lookup i ev page this j Hi), Hacc.
    rewrite bool_decide_eq_false_2 by assumption.
    by destruct (isExpanded this).
Qed.

Lemma toggle_flips_witness :
  let a := create no_options (sample_node "a" false false) in
  let b := create no_options (sample_node "b" true false) in
  isExpanded <$> toggle 0 Click [a; b] !! 0%nat = Some true
  /\ isExpanded <$> toggle 0 Click (toggle 0 Click [a; b]) !! 0%nat
     = Some false
  /\ toggle 0 Click [a; b] !! 1%nat = Some b.
Proof.
  intros a b.
  destruct (toggle_flips [a; b] 0 a Click Click eq_refl)
    as (_ & H1 & H2 & H3).
  split; [exact H1 | split; [exact H2 |]].
  exact (H3 eq_refl 1%nat ltac:(discriminate)).
Defined.

(** X12: the animations a toggle requests.  The toggled widget gets a
    slide down of the expand duration of its content height when it was
    collapsed, and a slide up of the collapse duration when it was
    expanded.  When it is an accordion member that expands, each of its
    siblings gets a slide up of the collapse duration of its own content
    height, also a sibling that is collapsed already. *)
Theorem toggle_animations (page : Page) (i : nat) (this : Expandable)
    (ev : Event) (e : Element) :
  let queue (w : Expandable) := fx <$> content (node w) in
  page !! i = Some this -> content (node this) = Some e ->
  toggle i ev page !! i ≫= queue
  = Some ((if isExpanded this
           then (SlideUp, Some (calculateCollapseDuration (height e)))
           else (SlideDown, Some (calculateExpandDuration (height e))))
          :: fx e)
  /\ (isExpanded this = false -> isInAccordion this = true ->
      forall j s es,
        page !! j = Some s -> is_sibling i this j s = true ->
        content (node s) = Some es ->
        toggle i ev page !! j ≫= queue
        = Some ((SlideUp, Some (calculateCollapseDuration (height es)))
                :: fx es)).
Proof.
  intros queue Hi He. split.
  - rewrite (toggle_self i ev page this Hi); simpl.
    destruct (isExpanded this); unfold queue; simpl; by rewrite He.
  - intros Hex Hacc j s es Hj Hsib Hes.
    rewrite (toggle_lookup i ev page this j Hi), Hex, Hacc.
    assert (j <> i) as Hji.
    { intros ->. pose proof (sibling_at_self i this page) as Hself.
      unfold sibling_at in Hself. rewrite Hj in Hself. congruence. }
    rewrite bool_decide_eq_false_2 by assumption.
    unfold sibling_at. rewrite Hj, Hsib; simpl.
    unfold queue; simpl. by rewrite Hes.
Qed.

Lemma toggle_animations_witness :
  let queue (w : Expandable) := fx <$> content (node w) in
  toggle 0 Click sample_page !! 0%nat ≫= queue
  = Some [(SlideDown, Some 450); (SlideUp, Some 0)]
  /\ toggle 0 Click sample_page !! 2%nat ≫= queue
     = Some [(SlideUp, Some 350); (SlideUp, Some 0)].
Proof.
  intros queue.
  destruct (toggle_animations sample_page 0 (sample_widget false) Click _
              eq_refl eq_refl) as [H0 Hs].
  split; [exact H0 |].
  exact (Hs eq_refl eq_refl 2%nat
           (create no_options (sample_node "c" false true)) _
           eq_refl eq_refl eq_refl).
Defined.

(** ** Which activations run *)

Section ThrottleAccepts.
Context {C E : Type}.
Variable duration : Z.
Variable f : E -> C -> C.

Lemma perform_all_accepted (tasks : list (Task E)) (pending : option Z)
    (ctx : C) :
  context
    (perform_all duration (returning f) tasks
       match pending with
       | None => _throttle ctx
       | Some deadline => mkThrottle true [deadline] ctx
       end)
  = foldl (fun c a => f a.2 c) ctx (accepted duration pending tasks).
Proof.
  unfold perform_all. revert pending ctx.
  induction tasks as [| [now e | now] tasks IH]; intros pending ctx.
  - by destruct pending.
  - destruct pending as [deadline |]; simpl.
    + apply (IH (Some deadline)).
    + apply (IH (Some (now + timeout_delay duration))).
  - destruct pending as [deadline |]; simpl; [| apply (IH None)].
    case_bool_decide as Hdue.
    + rewrite run_timers_due by assumption. apply (IH None).
    + rewrite run_timers_pending by lia. apply (IH (Some deadline)).
Qed.

Lemma accepted_sublist (tasks : list (Task E)) (pending : option Z) :
  accepted duration pending tasks `sublist_of` activations_of tasks.
Proof.
  revert pending.
  induction tasks as [| [now e | now] tasks IH]; intros pending; simpl.
  - constructor.
  - destruct pending; [apply sublist_cons | apply sublist_skip]; apply IH.
  - destruct pending; apply IH.
Qed.

Lemma accepted_head (tasks : list (Task E)) :
  head (accepted duration None tasks) = head (activations_of tasks).
Proof.
  induction tasks as [| [now e | now] tasks IH]; simpl; auto.
Qed.

Lemma accepted_idle_after (tasks : list (Task E)) (now : Z) (b : Z * E) :
  Forall (fun y => now <= task_time y) tasks ->
  head (accepted duration None tasks) = Some b -> now <= b.1.
Proof.
  induction 1 as [| [t e | t] tasks Ht _ IH]; simpl;
    [discriminate | | exact IH].
  by intros [= <-].
Qed.

Lemma accepted_pending_after (tasks : list (Task E)) (deadline : Z)
    (b : Z * E) :
  in_time_order tasks ->
  head (accepted duration (Some deadline) tasks) = Some b ->
  deadline <= b.1.
Proof.
  unfold in_time_order.
  induction tasks as [| [now e | now] tasks IH]; simpl;
    [discriminate | |];
    intros [Hall Hsorted]%StronglySorted_cons; [by apply IH |].
  case_bool_decide as Hdue; [| by apply IH].
  intros Hb. pose proof (accepted_idle_after tasks now b Hall Hb). lia.
Qed.

Lemma accepted_spaced (tasks : list (Task E)) (pending : option Z) (i : nat)
    (a b : Z * E) :
  in_time_order tasks ->
  accepted duration pending tasks !! i = Some a ->
  accepted duration pending tasks !! S i = Some b ->
  a.1 + timeout_delay duration <= b.1.
Proof.
  unfold in_time_order. revert pending i.
  induction tasks as [| [now e | now] tasks IH]; intros pending i; simpl;
    [discriminate | |];
    intros [Hall Hsorted]%StronglySorted_cons.
  - destruct pending as [deadline |]; [by apply IH |].
    destruct i as [| i]; simpl; [| by apply IH].
    intros [= <-] Hb. simpl.
    apply (accepted_pending_after tasks); [assumption |].
    by rewrite head_lookup.
  - destruct pending; by apply IH.
Qed.

(** X13: which activations of a throttled handler run, for any sequence
    of tasks on a fresh closure and a callback that returns.  The
    callback runs on the activations that [accepted] lets through, in
    their order, and on no other: an activation that finds no timeout
    pending.  These are activations of the sequence, the first one
    among them.  For a [duration] from 0 to 2^31 - 1 and tasks that
    come in the order of their times, each activation that runs comes
    at least [duration] after the one that ran before it.  The closure
    never has more than one timeout pending. *)
Theorem throttle_accepts (ctx : C) (tasks : list (Task E)) :
  let ran := accepted duration None tasks in
  let s := perform_all duration (returning f) tasks (_throttle ctx) in
  context s = foldl (fun c a => f a.2 c) ctx ran
  /\ (length (timers s) <= 1)%nat
  /\ ran `sublist_of` activations_of tasks
  /\ head ran = head (activations_of tasks)
  /\ (0 <= duration < 2 ^ 31 -> in_time_order tasks ->
      forall i a b, ran !! i = Some a -> ran !! S i = Some b ->
                    a.1 + duration <= b.1).
Proof.
  intros ran s. subst ran s.
  split; [apply (perform_all_accepted tasks None) |].
  split; [apply perform_all_timers; simpl; auto |].
  split; [apply accepted_sublist |].
  split; [apply accepted_head |].
  intros Hd Hord i a b Ha Hb.
  rewrite <- (timeout_delay_in_range duration Hd).
  by apply (accepted_spaced tasks None i).
Qed.
End ThrottleAccepts.

Lemma throttle_accepts_witness :
  let tasks :=
    [Activation 0 Click; Activation 100 Click; Timeout 450;
     Activation 460 Click; Activation 900 Click; Timeout 910;
     Activation 1400 Click] in
  accepted 450 None tasks = [(0, Click); (460, Click); (1400, Click)]
  /\ context
       (perform_all 450 (returning (fun (_ : Event) (n : nat) => S n)) tasks
          (_throttle 0%nat)) = 3%nat
  /\ 0 + 450 <= 460.
Proof.
  intros tasks.
  destruct (throttle_accepts 450 (fun (_ : Event) (n : nat) => S n) 0%nat
              tasks) as (Hrun & _ & _ & _ & Hgap).
  split; [reflexivity |].
  split; [by rewrite Hrun |].
  assert (in_time_order tasks) as Hord.
  { unfold in_time_order. repeat constructor; simpl; lia. }
  exact (Hgap ltac:(lia) Hord 0%nat (0, Click) (460, Click) eq_refl eq_refl).
Defined.
(** ** The running document *)

Lemma handle_page (i : nat) (now : Z) (r : Page * list Bound) (h : Bound) :
  (handle i now r h).1 = r.1
  \/ (handle i now r h).1 = toggle i Click r.1.
Proof.
  unfold handle, _delay; simpl. destruct (bound_throttling h); auto.
Qed.

(** What clicks keep: a property of the page that every toggle keeps. *)
Lemma click_at_preserves (P : Page -> Prop) (i : nat) (now : Z)
    (doc : Document) :
  (forall page, P page -> P (toggle i Click page)) ->
  P (widgets doc) -> P (widgets (click_at i now doc)).
Proof.
  intros Htoggle. unfold click_at.
  destruct (handlers doc !! i) as [hs |]; [| auto]. simpl.
  change (widgets doc) with ((widgets doc, @nil Bound).1) at 1.
  generalize (widgets doc, @nil Bound) as r.
  induction hs as [| h hs IH]; intros r Hp; simpl; [assumption |].
  apply IH. destruct (handle_page i now r h) as [-> | ->]; auto.
Qed.

Lemma in_sync_destroy (this : Expandable) :
  in_sync this -> in_sync (destroy this).
Proof. auto. Qed.

Lemma run_preserves (P : Page -> Prop) (actions : list Action)
    (doc : Document) :
  (forall i page, P page -> P (toggle i Click page)) ->
  (forall i page, P page -> P (alter destroy i page)) ->
  P (widgets doc) -> P (widgets (run actions doc)).
Proof.
  intros Htoggle Hdestroy. unfold run. revert doc.
  induction actions as [| a actions IH]; intros doc Hp; simpl;
    [assumption |].
  apply IH. destruct a as [i now | i k now | i]; simpl.
  - apply click_at_preserves; auto.
  - assumption.
  - by apply Hdestroy.
Qed.

Lemma markers_named_load (options : Options) (selection : list Node) :
  class_name (default "expandable__expanded" (opt_expandedClass options)) ->
  markers_named (expandable options selection).
Proof.
  intros Hc. unfold markers_named, expandable.
  apply Forall_fmap, Forall_forall. intros n _; simpl.
  by destruct (create_properties options n) as (_ & -> & _).
Qed.

(** X14: when the marker is one class name, which the default is, then
    from the moment the script has run, whatever the markup, and after
    any sequence of clicks on triggers at any times, of timeouts and of
    teardowns, [isExpanded] of every instance says whether its container
    carries the marker class. *)
Theorem in_sync_always (options : Options) (selection : list Node)
    (actions : list Action) :
  class_name (default "expandable__expanded" (opt_expandedClass options)) ->
  Forall in_sync (widgets (run actions (load options selection))).
Proof.
  intros Hc.
  apply (run_preserves
           (fun page => markers_named page /\ Forall in_sync page)
           actions (load options selection)).
  - intros i page [Hn Hs].
    split; [by apply markers_named_toggle | by apply in_sync_toggle].
  - intros i page [Hn Hs].
    split; (apply Forall_alter; [assumption |]); by intros w _.
  - split; [by apply markers_named_load |].
    simpl. unfold expandable. apply Forall_fmap, Forall_forall.
    intros n _. apply in_sync_create.
Qed.

Lemma in_sync_always_witness :
  let selection :=
    [sample_node "a" false true; sample_node "b" true true] in
  let actions :=
    [ClickAt 0 0; ClickAt 0 10; TimeoutAt 0 0 450; ClickAt 1 460;
     DestroyAt 0; ClickAt 1 470] in
  isExpanded <$> widgets (run actions (load no_options selection))
  = [false; true]
  /\ Forall in_sync (widgets (run actions (load no_options selection))).
Proof.
  intros selection actions. split; [reflexivity |].
  by apply in_sync_always.
Defined.

(** Where accordion members come from and go. *)
Lemma accordion_below_toggle (p i : nat) (ev : Event) (page : Page) :
  accordion_below p page -> accordion_below p (toggle i ev page).
Proof.
  unfold accordion_below. rewrite !Forall_lookup. intros Hpage j w Hj.
  destruct (toggle_lookup_origin i ev page j w Hj)
    as (s & Hs & [-> | [-> | ->]]); apply (Hpage j s Hs).
Qed.

Lemma accordion_below_destroy (p i : nat) (page : Page) :
  accordion_below p page -> accordion_below p (alter destroy i page).
Proof.
  intros Hpage. apply Forall_alter; [assumption |].
  intros w _. discriminate.
Qed.

Lemma at_most_one_toggle_member (p i : nat) (ev : Event) (page : Page)
    (this : Expandable) :
  page !! i = Some this -> isInAccordion this = true ->
  at_most_one_expanded p page -> at_most_one_expanded p (toggle i ev page).
Proof.
  intros Hi Hacc Hone j k wj wk Hj Hk Hmj Hmk Hej Hek.
  destruct (toggle_expanded_member page i this ev p j wj Hi Hacc Hj Hej Hmj)
    as [(-> & Hex & Hp) | (_ & Hj' & Hno)];
  destruct (toggle_expanded_member page i this ev p k wk Hi Hacc Hk Hek Hmk)
    as [(-> & Hex' & Hp') | (_ & Hk' & Hno')].
  - reflexivity.
  - by destruct (Hno' Hex).
  - by destruct (Hno Hex').
  - by apply (Hone j k wj wk).
Qed.

Lemma at_most_one_toggle (p i : nat) (ev : Event) (page : Page) :
  accordion_below p page ->
  at_most_one_expanded p page -> at_most_one_expanded p (toggle i ev page).
Proof.
  intros Hbelow Hone.
  destruct (page !! i) as [this |] eqn:Hi;
    [| unfold toggle; by rewrite Hi].
  destruct (isInAccordion this) eqn:Hacc;
    [by apply (at_most_one_toggle_member p i ev page this) |].
  assert (parentNode (node this) <> Some p) as Hp.
  { intros Hp. unfold accordion_below in Hbelow.
    rewrite Forall_lookup in Hbelow.
    specialize (Hbelow i this Hi Hp). congruence. }
  assert (forall j w, toggle i ev page !! j = Some w -> member p w = true ->
                      page !! j = Some w) as Hsame.
  { intros j w Hj Hm.
    rewrite (toggle_lookup i ev page this j Hi), Hacc in Hj.
    apply andb_true_iff in Hm as [Hpw%bool_decide_eq_true _].
    destruct (isExpanded this); case_bool_decide; subst;
      try assumption; injection Hj as <-; contradiction. }
  intros j k wj wk Hj Hk Hmj Hmk Hej Hek.
  apply (Hone j k wj wk); auto.
Qed.

Lemma at_most_one_destroy (p i : nat) (page : Page) :
  at_most_one_expanded p page ->
  at_most_one_expanded p (alter destroy i page).
Proof.
  intros Hone.
  assert (forall j w, alter destroy i page !! j = Some w ->
                      member p w = true -> page !! j = Some w) as Hsame.
  { intros j w Hj Hm. destruct (decide (i = j)) as [-> | Hne].
    - rewrite list_lookup_alter_eq in Hj.
      destruct (page !! j) as [s |]; [| discriminate].
      injection Hj as <-. discriminate.
    - by rewrite list_lookup_alter_ne in Hj by assumption. }
  intros j k wj wk Hj Hk Hmj Hmk Hej Hek.
  apply (Hone j k wj wk); auto.
Qed.

(** X15: exclusivity of an accordion over time.  When every widget
    below the parent [p] has the accordion flag and the page that the
    script creates has at most one expanded expandable below [p], then
    after any sequence of clicks and teardowns there is still at most
    one. *)
Theorem accordion_exclusive_always (options : Options)
    (selection : list Node) (p : nat) (actions : list Action) :
  accordion_below p (expandable options selection) ->
  at_most_one_expanded p (expandable options selection) ->
  at_most_one_expanded p (widgets (run actions (load options selection))).
Proof.
  intros Hbelow Hone.
  apply (run_preserves
           (fun page => accordion_below p page /\ at_most_one_expanded p page)
           actions (load options selection)); [| | by split].
  - intros i page [Hb Ho].
    split; [by apply accordion_below_toggle | by apply at_most_one_toggle].
  - intros i page [Hb Ho].
    split; [by apply accordion_below_destroy | by apply at_most_one_destroy].
Qed.

Lemma accordion_exclusive_always_witness :
  let selection :=
    [sample_node "a" false true; sample_node "b" true true;
     sample_node "c" false true] in
  let actions := [ClickAt 0 0; ClickAt 2 100; DestroyAt 1; ClickAt 2 200] in
  isExpanded <$> widgets (run actions (load no_options selection))
  = [false; false; true]
  /\ at_most_one_expanded 0
       (widgets (run actions (load no_options selection))).
Proof.
  intros selection actions. split; [reflexivity |].
  apply accordion_exclusive_always.
  - repeat constructor.
  - intros j k wj wk Hj Hk _ _ Hej Hek.
    destruct j as [| [| [| j]]], k as [| [| [| k]]];
      try reflexivity; vm_compute in Hj, Hk; try discriminate;
      injection Hj as <-; injection Hk as <-; discriminate.
Defined.

(** ** Handlers *)

Lemma load_lookup (options : Options) (selection : list Node) (i : nat) :
  (i < length selection)%nat ->
  exists this,
    widgets (load options selection) !! i = Some this
    /\ handlers (load options selection) !! i
       = Some [mkBound (default 450 (opt_throttleDuration options)) false []].
Proof.
  intros Hi. destruct (lookup_lt_is_Some_2 selection i Hi) as [n Hn].
  exists (create options n). simpl. unfold expandable.
  rewrite !list_lookup_fmap, Hn; simpl. split; [reflexivity |].
  unfold bind. by destruct (create_properties options n) as (_ & _ & ->).
Qed.

(** A click on a trigger whose one handler is idle. *)
Lemma click_at_idle (i : nat) (now d : Z) (doc : Document) :
  handlers doc !! i = Some [mkBound d false []] ->
  click_at i now doc
  = mkDocument (toggle i Click (widgets doc))
      (<[i := [mkBound d true [now + timeout_delay d]]]> (handlers doc)).
Proof. intros Hh. unfold click_at. by rewrite Hh. Qed.

(** A click on a trigger whose one handler is throttling. *)
Lemma click_at_throttling (i : nat) (now d : Z) (pending : list Z)
    (doc : Document) :
  handlers doc !! i = Some [mkBound d true pending] ->
  widgets (click_at i now doc) = widgets doc.
Proof. intros Hh. unfold click_at. by rewrite Hh. Qed.

(** X16: the throttle is one per instance.  After a click on the
    trigger of one instance, a click on the trigger of another one is
    processed at once, however soon it comes.  A click on the same
    trigger is ignored as long as the timeout of its handler has not
    run, and for a [throttleDuration] from 0 to 2^31 - 1 the timeout
    does not run before [throttleDuration] has passed; once it has run,
    the next click is processed. *)
Theorem throttle_per_instance (options : Options) (selection : list Node)
    (i j : nat) (t0 t tf : Z) :
  (i < length selection)%nat -> (j < length selection)%nat -> i <> j ->
  let d := default 450 (opt_throttleDuration options) in
  let doc := click_at i t0 (load options selection) in
  widgets doc = toggle i Click (expandable options selection)
  /\ widgets (click_at j t doc) = toggle j Click (widgets doc)
  /\ widgets (click_at i t doc) = widgets doc
  /\ (0 <= d < 2 ^ 31 -> tf < t0 + d ->
      widgets (click_at i t (timeout_at i 0 tf doc)) = widgets doc)
  /\ (0 <= d < 2 ^ 31 -> t0 + d <= tf ->
      widgets (click_at i t (timeout_at i 0 tf doc))
      = toggle i Click (widgets doc)).
Proof.
  intros Hi Hj Hne d doc.
  destruct (load_lookup options selection i Hi) as (wi & _ & Hhi).
  destruct (load_lookup options selection j Hj) as (wj & _ & Hhj).
  fold d in Hhi, Hhj.
  assert (i < length (handlers (load options selection)))%nat as Hlen
    by (simpl; unfold expandable; by rewrite !length_fmap).
  subst doc. rewrite (click_at_idle i t0 d _ Hhi). cbn [widgets].
  assert (forall hs : list (list Bound),
             (i < length hs)%nat ->
             alter (alter (expire tf) 0%nat) i
               (<[i := [mkBound d true [t0 + timeout_delay d]]]> hs) !! i
             = Some [expire tf (mkBound d true [t0 + timeout_delay d])])
    as Hexp.
  { intros hs Hhs. rewrite list_lookup_alter_eq.
    by rewrite list_lookup_insert_eq by assumption. }
  split; [reflexivity |]. split; [| split; [| split]].
  - rewrite (click_at_idle j t d); [reflexivity |].
    cbn [handlers]. rewrite list_lookup_insert_ne by assumption. exact Hhj.
  - apply (click_at_throttling i t d [t0 + timeout_delay d]).
    cbn [handlers]. by apply list_lookup_insert_eq.
  - intros Hd Htf.
    apply (click_at_throttling i t d [t0 + timeout_delay d]).
    unfold timeout_at. cbn [handlers widgets]. rewrite Hexp by assumption.
    unfold expire. cbn [bound_throttling bound_timers bound_duration].
    rewrite run_timers_pending; [reflexivity |].
    rewrite timeout_delay_in_range by assumption. lia.
  - intros Hd Htf.
    rewrite (click_at_idle i t d); [reflexivity |].
    unfold timeout_at. cbn [handlers widgets]. rewrite Hexp by assumption.
    unfold expire. cbn [bound_throttling bound_timers bound_duration].
    rewrite run_timers_due; [reflexivity |].
    rewrite timeout_delay_in_range by assumption. lia.
Qed.

Lemma throttle_per_instance_witness :
  let selection :=
    [sample_node "a" false false; sample_node "b" false false] in
  let doc := click_at 0 0 (load no_options selection) in
  isExpanded <$> widgets doc = [true; false]
  /\ isExpanded <$> widgets (click_at 1 1 doc) = [true; true]
  /\ widgets (click_at 0 1 doc) = widgets doc
  /\ widgets (click_at 0 1000 (timeout_at 0 0 449 doc)) = widgets doc
  /\ isExpanded <$> widgets (click_at 0 451 (timeout_at 0 0 450 doc))
     = [false; false].
Proof.
  intros selection doc.
  assert (0 < length selection)%nat as H0 by (simpl; lia).
  assert (1 < length selection)%nat as H1 by (simpl; lia).
  assert (0 <> 1)%nat as Hne by discriminate.
  destruct (throttle_per_instance no_options selection 0 1 0 1 449
              H0 H1 Hne) as (Hd & Hother & Hsame & _ & _).
  destruct (throttle_per_instance no_options selection 0 1 0 1000 449
              H0 H1 Hne) as (_ & _ & _ & Hearly & _).
  destruct (throttle_per_instance no_options selection 0 1 0 451 450
              H0 H1 Hne) as (_ & _ & _ & _ & Hlate).
  fold doc in Hd, Hother, Hsame, Hearly, Hlate.
  split; [by rewrite Hd |]. split; [by rewrite Hother, Hd |].
  split; [exact Hsame |]. split.
  - apply Hearly; simpl; lia.
  - rewrite Hlate by (simpl; lia). by rewrite Hd.
Defined.

(** X17: running the plugin a second time on elements that are
    instances already binds a second handler beside the first, so that a
    click on the trigger toggles the widget twice and leaves
    [isExpanded] as it was. *)
Theorem load_again_toggles_twice (options options' : Options)
    (selection : list Node) (i : nat) (now : Z) :
  (i < length selection)%nat ->
  let doc := load_again options' (load options selection) in
  length <$> handlers doc !! i = Some 2%nat
  /\ widgets (click_at i now doc)
     = toggle i Click (toggle i Click (widgets doc))
  /\ isExpanded <$> widgets (click_at i now doc) !! i
     = isExpanded <$> widgets doc !! i.
Proof.
  intros Hi doc.
  destruct (load_lookup options selection i Hi) as (w & Hw & Hh).
  assert (widgets doc !! i = Some (create options' (node w))) as Hw'.
  { subst doc. unfold load_again. cbn [widgets].
    rewrite list_lookup_fmap. by rewrite Hw. }
  assert (handlers doc !! i
          = Some [mkBound (default 450 (opt_throttleDuration options))
                    false [];
                  bind (create options' (node w))]) as Hh'.
  { subst doc. unfold load_again. cbn [handlers].
    rewrite lookup_zip_with, list_lookup_fmap.
    rewrite Hw, Hh. reflexivity. }
  assert (widgets (click_at i now doc)
          = toggle i Click (toggle i Click (widgets doc))) as Hclick.
  { unfold click_at. rewrite Hh'. reflexivity. }
  split; [by rewrite Hh' |]. split; [exact Hclick |].
  rewrite Hclick.
  pose proof (toggle_self i Click (widgets doc) _ Hw') as H1.
  rewrite (toggle_self i Click _ _ H1), Hw'; simpl.
  by destruct (isExpanded (create options' (node w))).
Qed.

Lemma load_again_toggles_twice_witness :
  let doc :=
    load_again no_options (load no_options [sample_node "a" false false]) in
  isExpanded <$> widgets doc = [false]
  /\ isExpanded <$> widgets (click_at 0 0 doc) !! 0%nat = Some false
  /\ (widgets (click_at 0 0 doc) !! 0%nat)
     ≫= (fun w => fx <$> content (node w))
     = Some [(SlideUp, Some 350); (SlideDown, Some 450);
             (SlideUp, Some 0); (SlideUp, Some 0)].
Proof.
  intros doc.
  assert (0 < length [sample_node "a" false false])%nat as H0
    by (simpl; lia).
  destruct (load_again_toggles_twice no_options no_options
              [sample_node "a" false false] 0 0 H0) as (_ & Hpage & Hflag).
  fold doc in Hpage, Hflag.
  split; [reflexivity |]. split; [by rewrite Hflag |].
  by rewrite Hpage.
Defined.

(** ** Teardown *)

Lemma sibling_of_destroyed (i j : nat) (this s : Expandable) :
  is_sibling i this j (destroy s) = false
  /\ is_sibling j (destroy s) i this = false.
Proof.
  unfold is_sibling; simpl. split.
  - destruct (parentNode (node this)); by rewrite andb_false_r.
  - by rewrite andb_false_r.
Qed.

(** X18: [destroy] takes the widget out of the tree and out of every
    accordion, and leaves its state as it is.  After it, the toggle of
    another widget does not touch the destroyed one, a toggle of the
    destroyed one touches no other widget, and a click on its trigger
    does nothing, the handlers being gone. *)
Theorem destroy_detaches (doc : Document) (i j : nat) (this s : Expandable)
    (ev : Event) (now : Z) :
  widgets doc !! i = Some this -> widgets doc !! j = Some s -> i <> j ->
  let doc' := destroy_at j doc in
  widgets doc' !! j = Some (destroy s)
  /\ observe (destroy s) = observe s
  /\ parentNode (node (destroy s)) = None
  /\ toggle i ev (widgets doc') !! j = Some (destroy s)
  /\ (forall k, k <> j ->
        toggle j ev (widgets doc') !! k = widgets doc' !! k)
  /\ click_at j now doc' = doc'.
Proof.
  intros Hi Hj Hne doc'. subst doc'. unfold destroy_at; cbn [widgets handlers].
  assert (alter destroy j (widgets doc) !! j = Some (destroy s)) as Hj'
    by (by rewrite list_lookup_alter_eq, Hj).
  assert (alter destroy j (widgets doc) !! i = Some this) as Hi'
    by (by rewrite list_lookup_alter_ne by congruence).
  split; [exact Hj' |]. split; [reflexivity |]. split; [reflexivity |].
  split; [| split].
  - rewrite (toggle_lookup i ev _ this j Hi').
    rewrite bool_decide_eq_false_2 by congruence.
    unfold sibling_at. rewrite Hj'.
    rewrite (proj1 (sibling_of_destroyed i j this s)), andb_false_r.
    by destruct (isExpanded this).
  - intros k Hk. rewrite (toggle_lookup j ev _ (destroy s) k Hj').
    rewrite bool_decide_eq_false_2 by assumption.
    assert (sibling_at j (destroy s) (alter destroy j (widgets doc)) k = false)
      as ->.
    { unfold sibling_at.
      destruct (alter destroy j (widgets doc) !! k) as [w |]; [| reflexivity].
      apply (proj2 (sibling_of_destroyed k j w s)). }
    rewrite andb_false_r. by destruct (isExpanded (destroy s)).
  - unfold click_at; cbn [widgets handlers].
    destruct (<[j:=[]]> (handlers doc) !! j) as [hs |] eqn:Hh;
      [| reflexivity].
    apply list_lookup_insert_Some in Hh as [(_ & <- & _) | [? _]];
      [| congruence].
    simpl. by rewrite list_insert_insert_eq.
Qed.

Lemma destroy_detaches_witness :
  let doc :=
    destroy_at 1
      (load no_options
         [sample_node "a" false true; sample_node "b" true true]) in
  isExpanded <$> widgets (click_at 0 0 doc) = [true; true]
  /\ click_at 1 0 doc = doc.
Proof.
  intros doc.
  destruct (destroy_detaches
              (load no_options
                 [sample_node "a" false true; sample_node "b" true true])
              0 1 _ _ Click 0 eq_refl eq_refl ltac:(discriminate))
    as (_ & _ & _ & _ & _ & Hclick).
  split; [reflexivity | exact Hclick].
Defined.
